(** * fix_tools.py: the executor migration script, embedded and verified

    The script walks a fixed list of TypeScript executor files and rewrites
    each one with four [re.sub] calls.  This development embeds

    - the fragment of Python's [re] that the four calls use (literal
      characters, character classes, greedy [+], one capturing group, and
      replacement templates),
    - the four rewrites and their composition [fix_content],
    - the loop over the target list, with the file system and the console
      as explicit state,

    and proves the properties the specification states about them.

    Texts are sequences of characters.  A [str] read with
    [encoding='utf-8'] is modelled by the bytes of its encoding: every
    pattern of the script is ASCII, and the only class that accepts
    non-ASCII input, the negated class of the two quote characters, accepts
    every byte of a multi-byte sequence, so matching code points and
    matching bytes agree on valid UTF-8. *)

From Stdlib Require Import Ascii String List Arith Lia Bool.
From stdpp Require Import gmap strings list fin_maps.

Open Scope string_scope.
Open Scope nat_scope.
Open Scope list_scope.

(** ** Texts *)

Abbreviation text := (list ascii).

Definition txt (s : string) : text := list_ascii_of_string s.

Definition squote : ascii := "'"%char.
Definition dquote : ascii := "034"%char.
Definition newline : ascii := "010"%char.
Definition backslash : ascii := "\"%char.

(** [s.startswith(p)] *)
Fixpoint starts_with (p s : text) : bool :=
  match p, s with
  | [], _ => true
  | _ :: _, [] => false
  | a :: p', b :: s' => Ascii.eqb a b && starts_with p' s'
  end.

(** [p in s]: the literal [p] occurs somewhere in [s]. *)
Fixpoint occurs (p s : text) : bool :=
  starts_with p s ||
  match s with
  | [] => false
  | _ :: s' => occurs p s'
  end.

(** The start offsets of the occurrences of [p] in [s], counted from [i]. *)
Fixpoint offsets (p s : text) (i : nat) : list nat :=
  (if starts_with p s then [i] else []) ++
  match s with
  | [] => []
  | _ :: s' => offsets p s' (S i)
  end.

(** ** The fragment of [re] used by the script *)

Module Re.

(** One-character matchers. *)
Inductive cset :=
| Lit (c : ascii)             (* an ordinary or backslash-escaped character *)
| OneOf (cs : list ascii)     (* [...] *)
| NoneOf (cs : list ascii).   (* [^...] *)

Definition mem (c : ascii) (cs : list ascii) : bool :=
  existsb (Ascii.eqb c) cs.

Definition in_cset (a : cset) (c : ascii) : bool :=
  match a with
  | Lit c' => Ascii.eqb c' c
  | OneOf cs => mem c cs
  | NoneOf cs => negb (mem c cs)
  end.

(** Patterns.  Nothing here can match the empty string, so the special
    treatment [re.sub] gives to empty matches never comes into play. *)
Inductive regex :=
| Chr (a : cset)
| Plus (a : cset)             (* a+, greedy *)
| Cat (r1 r2 : regex)
| Grp (i : nat) (r : regex).  (* the i-th capturing group *)

Fixpoint groups (r : regex) : nat :=
  match r with
  | Chr _ | Plus _ => 0
  | Cat r1 r2 => groups r1 + groups r2
  | Grp _ r => S (groups r)
  end.

(** A run of literal characters, first character apart. *)
Fixpoint lit_from (c : ascii) (p : text) : regex :=
  match p with
  | [] => Chr (Lit c)
  | c' :: p' => Cat (Chr (Lit c)) (lit_from c' p')
  end.

(** A pattern made of ordinary characters only.  The script has no empty
    pattern; the empty class stands in for it here and matches nothing. *)
Definition lit (s : string) : regex :=
  match txt s with
  | [] => Chr (OneOf [])
  | c :: p => lit_from c p
  end.

Abbreviation captures := (gmap nat text).

Section Exec.
Context {R : Type}.

(** Greedy repetition of a one-character matcher, zero or more times:
    take as many characters as possible, give one back at a time while
    the rest of the pattern fails. *)
Fixpoint star (a : cset) (s : text) (k : text -> option R) : option R :=
  match s with
  | [] => k []
  | c :: s' =>
      if in_cset a c then
        match star a s' k with
        | Some res => Some res
        | None => k s
        end
      else k s
  end.

(** The backtracking matcher, anchored at the head of [s]; [k] is the
    rest of the pattern. *)
Fixpoint exec (r : regex) (s : text) (g : captures)
    (k : text -> captures -> option R) : option R :=
  match r with
  | Chr a =>
      match s with
      | c :: s' => if in_cset a c then k s' g else None
      | [] => None
      end
  | Plus a =>
      match s with
      | c :: s' => if in_cset a c then star a s' (fun s'' => k s'' g) else None
      | [] => None
      end
  | Cat r1 r2 => exec r1 s g (fun s' g' => exec r2 s' g' k)
  | Grp i r' =>
      exec r' s g
        (fun s' g' => k s' (<[i := take (length s - length s') s]> g'))
  end.
End Exec.

(** [pattern.match(s)]: the unmatched rest of [s] and the groups. *)
Definition match_here (r : regex) (s : text) : option (text * captures) :=
  exec r s ∅ (fun s' g => Some (s', g)).

(** [pattern.search(s) is not None] *)
Fixpoint search (r : regex) (s : text) : bool :=
  match match_here r s with
  | Some _ => true
  | None =>
      match s with
      | [] => false
      | _ :: s' => search r s'
      end
  end.

(** Replacement templates, after [parse_template]. *)
Inductive titem :=
| TChr (c : ascii)
| TGrp (i : nat).

Definition digit_value (c : ascii) : option nat :=
  let n := nat_of_ascii c in
  if (48 <=? n) && (n <=? 57) then Some (n - 48) else None.

Definition ascii_letter (c : ascii) : bool :=
  let n := nat_of_ascii c in
  ((65 <=? n) && (n <=? 90)) || ((97 <=? n) && (n <=? 122)).

(** The [ESCAPES] table of the template parser. *)
Definition escape (c : ascii) : option ascii :=
  if Ascii.eqb c "a" then Some "007"%char
  else if Ascii.eqb c "b" then Some "008"%char
  else if Ascii.eqb c "f" then Some "012"%char
  else if Ascii.eqb c "n" then Some "010"%char
  else if Ascii.eqb c "r" then Some "013"%char
  else if Ascii.eqb c "t" then Some "009"%char
  else if Ascii.eqb c "v" then Some "011"%char
  else if Ascii.eqb c "\" then Some "\"%char
  else None.

(** [parse_template]: [None] stands for [re.error] (a backslash at the end,
    a backslash before an unknown ASCII letter, a reference to a group the
    pattern does not have) and for the escapes left out of this fragment
    (named groups, octal escapes, two-digit group numbers), none of which
    the script writes.  A backslash before any other character stays in the
    output together with that character. *)
Fixpoint parse_template (ngroups : nat) (t : text) : option (list titem) :=
  match t with
  | [] => Some []
  | c :: t1 =>
      if negb (Ascii.eqb c backslash) then
        cons (TChr c) <$> parse_template ngroups t1
      else
        match t1 with
        | [] => None
        | e :: t2 =>
            match digit_value e with
            | Some d =>
                let next_is_digit :=
                  match t2 with
                  | [] => false
                  | e' :: _ => bool_decide (is_Some (digit_value e'))
                  end in
                if (d =? 0) || next_is_digit || (ngroups <? d) then None
                else cons (TGrp d) <$> parse_template ngroups t2
            | None =>
                match escape e with
                | Some x => cons (TChr x) <$> parse_template ngroups t2
                | None =>
                    if ascii_letter e then None
                    else (fun l => TChr c :: TChr e :: l)
                           <$> parse_template ngroups t2
                end
            end
        end
  end.

(** [match.expand(template)] *)
Definition expand (tpl : list titem) (g : captures) : text :=
  concat (map (fun it => match it with
                         | TChr c => [c]
                         | TGrp i => default [] (g !! i)
                         end) tpl).

(** The scan of [re.sub]: try the pattern at each offset from left to
    right; at a match emit the expansion and resume after the match,
    otherwise copy one character.  [skip] counts the characters of the last
    match still to be passed over. *)
Fixpoint scan (r : regex) (tpl : list titem) (skip : nat) (s : text) : text :=
  match s with
  | [] => []
  | c :: s' =>
      match skip with
      | S n => scan r tpl n s'
      | 0 =>
          match match_here r s with
          | Some (rest, g) =>
              expand tpl g ++ scan r tpl (length s - length rest - 1) s'
          | None => c :: scan r tpl 0 s'
          end
      end
  end.

(** [re.sub(pattern, repl, s)].  The template is compiled before the scan
    starts, so a bad template fails even when nothing matches. *)
Definition sub (pattern : regex) (repl : text) (s : text) : option text :=
  tpl ← parse_template (groups pattern) repl;
  Some (scan pattern tpl 0 s).

End Re.

(** ** The script *)

Definition tools : list string :=
  [ "ProjectScaffoldingTool.ts";
    "DatabaseSchemaTool.ts";
    "APIDocumentationTool.ts" ].

Definition categories : gmap string string :=
  <["ProjectScaffoldingTool.ts" := "Project Management"]>
  (<["DatabaseSchemaTool.ts" := "Database"]>
  (<["APIDocumentationTool.ts" := "Documentation"]> ∅)).

(** [categories.get(tool, 'Development')] *)
Definition category_of (tool : string) : string :=
  default "Development" (categories !! tool).

(** *** The four patterns and their replacements *)

Definition import_pat : string :=
  "import { ToolExecutor, ToolResult } from".
Definition import_re : Re.regex := Re.lit import_pat.
Definition import_repl : text :=
  txt "import { ToolExecutor, ToolResult, ToolMetadata } from".

Definition metadata_pat : string := "static metadata = {".
Definition metadata_re : Re.regex := Re.lit metadata_pat.
Definition metadata_repl : text :=
  txt "public metadata: ToolMetadata = {".

(** The pattern of the third call, in one capturing group: the characters
    [description: ], then a single or a double quote, then one or more
    characters that are neither, then a single or a double quote, then a
    comma. *)
Definition description_inner : Re.regex :=
  Re.Cat (Re.lit "description: ")
  (Re.Cat (Re.Chr (Re.OneOf [squote; dquote]))
  (Re.Cat (Re.Plus (Re.NoneOf [squote; dquote]))
  (Re.Cat (Re.Chr (Re.OneOf [squote; dquote]))
          (Re.Chr (Re.Lit ","%char))))).

Definition description_re : Re.regex := Re.Grp 1 description_inner.

(** The raw f-string [rf'\1\n        category: \'{category}\','].  In a raw
    string a backslash before a quote keeps the quote from ending the
    literal and stays in the string, so every character below is a
    character of the template handed to [re.sub]. *)
Definition description_repl (category : string) : text :=
  txt "\1\n        category: \'" ++ txt category ++ txt "\',".

(** In the source the two parentheses are escaped, [\(] and [\)], which
    makes them ordinary characters. *)
Definition execute_pat : string :=
  "async execute(params: Record<string, any>): Promise<ToolResult>".
Definition execute_re : Re.regex := Re.lit execute_pat.
Definition execute_repl : text :=
  txt "async execute(params: any, context: { workspaceRoot: string; outputChannel: any; onProgress?: (message: string) => void }): Promise<ToolResult>".

Definition fix_imports (content : text) : option text :=
  Re.sub import_re import_repl content.

Definition fix_metadata (content : text) : option text :=
  Re.sub metadata_re metadata_repl content.

Definition add_category (category : string) (content : text) : option text :=
  Re.sub description_re (description_repl category) content.

Definition fix_execute (content : text) : option text :=
  Re.sub execute_re execute_repl content.

(** The body of the loop between reading and writing the file. *)
Definition fix_content (tool : string) (content : text) : option text :=
  content ← fix_imports content;
  content ← fix_metadata content;
  content ← add_category (category_of tool) content;
  fix_execute content.

(** *** The loop, with the file system and the console as state

    The file system maps a path to the text [f.read()] returns for it; a
    path that is a directory, or a file that cannot be opened or decoded,
    is outside the model.  The console is the list of printed lines. *)

Record world := World {
  files : gmap string text;
  stdout : list string
}.

Definition filepath (tool : string) : string :=
  "src/agent/executors/" +:+ tool.

(** One iteration.  [None] is an exception leaving the loop. *)
Definition fix_tool (tool : string) (w : world) : option world :=
  match files w !! filepath tool with
  | None => Some w
  | Some content =>
      content' ← fix_content tool content;
      Some (World (<[filepath tool := content']> (files w))
                  (stdout w ++ ["Fixed " +:+ tool]))
  end.

Fixpoint fix_tools (ts : list string) (w : world) : option world :=
  match ts with
  | [] => Some w
  | tool :: ts' => w' ← fix_tool tool w; fix_tools ts' w'
  end.

(** The whole script over a target list [ts], started on the file system
    [fs] with an empty console. *)
Definition run (ts : list string) (fs : gmap string text) : option world :=
  w ← fix_tools ts (World fs []);
  Some (World (files w) (stdout w ++ ["All tools fixed!"])).

Definition main (fs : gmap string text) : option world := run tools fs.

(** *** The worked example of the specification *)

Definition legacy_module : text :=
  txt "import { ToolExecutor, ToolResult } from 'x';" ++ [newline] ++
  txt "class C { static metadata = {" ++ [newline] ++
  txt "  description: 'd'," ++ [newline] ++
  txt "}; async execute(params: Record<string, any>): Promise<ToolResult> {} }".

(** ** Notions used in the statements *)

(** One text begins the other. *)
Definition compat (a b : text) : bool := starts_with a b || starts_with b a.

(** No occurrence of [q] can overlap an inserted [chunk]: no suffix of [q]
    runs into the head of [chunk], and no suffix of [chunk] runs into the
    head of [q]. *)
Definition apart (q chunk : text) : bool :=
  forallb (fun j => negb (compat (drop j q) chunk)) (seq 0 (length q)) &&
  forallb (fun j => negb (compat (drop j chunk) q)) (seq 0 (length chunk)) &&
  negb (compat q chunk).

(** The text the third rewrite inserts after each match: what the
    template expands to after its group reference. *)
Definition category_field (category : string) : text :=
  match Re.parse_template 1 (description_repl category) with
  | Some (Re.TGrp 1 :: tpl) => Re.expand tpl ∅
  | _ => []
  end.

(** The labels [category_of] can return. *)
Definition labels : list string :=
  ["Project Management"; "Database"; "Documentation"; "Development"].

(** The literal rewrites: a non-empty literal pattern and a replacement
    without backslashes. *)
Definition replace_all (pat : string) (repl s : text) : text :=
  Re.scan (Re.lit pat) (map Re.TChr repl) 0 s.

Definition insert_category (category : string) (s : text) : text :=
  Re.scan description_re
    (Re.TGrp 1 :: map Re.TChr (category_field category)) 0 s.

Definition is_quote (c : ascii) : bool := Re.mem c [squote; dquote].

(** A description field: the key, a quoted non-empty value without quotes
    inside, and the comma. *)
Definition description_field (q1 q2 : ascii) (body : text) : text :=
  txt "description: " ++ q1 :: body ++ [q2; ","%char].

(** [pattern.search(s)] as a span: the text before the first match, the
    match, and the text after it. *)
Fixpoint find (r : Re.regex) (s : text) : option (text * text * text) :=
  match Re.match_here r s with
  | Some (rest, _) => Some ([], take (length s - length rest) s, rest)
  | None =>
      match s with
      | [] => None
      | c :: s' =>
          match find r s' with
          | Some (a, m, b) => Some (c :: a, m, b)
          | None => None
          end
      end
  end.

(** The worked example after one run, around the inserted field. *)
Definition fixed_head : text :=
  txt "import { ToolExecutor, ToolResult, ToolMetadata } from 'x';" ++
  [newline] ++
  txt "class C { public metadata: ToolMetadata = {" ++ [newline] ++
  txt "  description: 'd',".

Definition fixed_tail : text :=
  [newline] ++ txt "}; " ++ execute_repl ++ txt " {} }".

(** Following the words of the specification: the category field goes
    after the first description field found, once. *)
Definition add_category_first (category : string) (s : text) : text :=
  match find description_re s with
  | Some (a, m, b) => a ++ m ++ category_field category ++ b
  | None => s
  end.

(** A metadata block with a description of its own and one for a
    parameter. *)
Definition two_descriptions : text :=
  txt "static metadata = { description: 'd', parameters: { path: { description: 'p', } } }".

Definition present (fs : gmap string text) (tool : string) : bool :=
  bool_decide (is_Some (fs !! filepath tool)).

Definition report (tool : string) : string := "Fixed " +:+ tool.

(** A text without a backslash: as a replacement it is copied as it is. *)
Definition plain (t : text) : bool :=
  forallb (fun c => negb (Ascii.eqb c backslash)) t.

(** The characters of the third replacement after its group reference, as
    they reach the output when the label is [plain]: the newline the
    template writes as backslash-n, the indentation, the key, and the label
    between two backslash-quote pairs. *)
Definition category_line (category : string) : text :=
  newline :: txt "        category: \'" ++ txt category ++ txt "\',".

(** No proper suffix of [p] begins [p] or is begun by it: two occurrences
    of [p] cannot overlap. *)
Definition unbordered (p : text) : bool :=
  forallb (fun j => negb (compat (drop j p) p)) (seq 1 (length p - 1)).

(** A sequence of rewrites run one after the other, each on the output
    of the one before, as the body of the loop runs its four. *)
Fixpoint apply_in_order (rules : list (text -> option text)) (s : text)
    : option text :=
  match rules with
  | [] => Some s
  | rule :: rules' => s' ← rule s; apply_in_order rules' s'
  end.

(** Two rewrites give the same result in either order. *)
Definition commute (f g : text -> option text) : Prop :=
  forall s, (s1 ← f s; g s1) = (s1 ← g s; f s1).

(** A legacy module without a description field: the three literal
    rewrites fire on it, the category rewrite does not. *)
Definition undescribed_module : text :=
  txt "import { ToolExecutor, ToolResult } from 'x';" ++ [newline] ++
  txt "class C { static metadata = {" ++ [newline] ++
  txt "}; async execute(params: Record<string, any>): Promise<ToolResult> {} }".

(** * Verification *)

(** ** Literal prefixes and occurrences *)

Lemma starts_with_prefix (p s : text) :
  starts_with p s = true <-> exists t, s = p ++ t.
Proof.
  revert s. induction p as [|a p IH]; intros s; simpl.
  - split; [intros _; by exists s | done].
  - destruct s as [|b s]; simpl.
    + split; [done | intros [t Ht]; discriminate].
    + rewrite andb_true_iff, IH, Ascii.eqb_eq. split.
      * intros [-> [t ->]]. by exists t.
      * intros [t Ht]. injection Ht as -> ->. split; [done | by exists t].
Qed.

Lemma starts_with_app (p t : text) : starts_with p (p ++ t) = true.
Proof. apply starts_with_prefix. by exists t. Qed.

Lemma starts_with_drop (p s : text) :
  starts_with p s = true -> s = p ++ drop (length p) s.
Proof.
  intros [t ->]%starts_with_prefix. by rewrite drop_app_length.
Qed.

(** A literal that begins a concatenation begins its left part, or the left
    part begins the literal. *)
Lemma starts_with_split (q a x : text) :
  starts_with q (a ++ x) = true ->
  starts_with q a = true \/
  (length a < length q /\ starts_with a q = true /\
   starts_with (drop (length a) q) x = true).
Proof.
  revert a. induction q as [|c q IH]; intros a H; simpl in *.
  - by left.
  - destruct a as [|b a]; simpl in *.
    + right. split; [lia | done].
    + apply andb_true_iff in H as [Hc H].
      apply Ascii.eqb_eq in Hc as ->. rewrite Ascii.eqb_refl. simpl.
      destruct (IH _ H) as [?|(? & ? & ?)]; [by left | right].
      split; [lia | done].
Qed.

Lemma occurs_false (p s : text) :
  occurs p s = false <-> forall i, starts_with p (drop i s) = false.
Proof.
  induction s as [|c s IH]; simpl.
  - rewrite orb_false_r. split.
    + intros H i. by rewrite drop_nil.
    + intros H. apply (H 0).
  - rewrite orb_false_iff, IH. split.
    + intros [H0 H] [|i]; [done | apply H].
    + intros H. split; [apply (H 0) | intros i; apply (H (S i))].
Qed.

Lemma occurs_true (p s : text) :
  occurs p s = true <-> exists a b, s = a ++ p ++ b.
Proof.
  induction s as [|c s IH]; simpl.
  - rewrite orb_false_r, starts_with_prefix. split.
    + intros [t Ht]. by exists [], t.
    + intros (a & b & H). destruct a; simpl in H.
      * by exists b.
      * discriminate.
  - rewrite orb_true_iff, IH, starts_with_prefix. split.
    + intros [[t Ht] | (a & b & ->)].
      * by exists [], t.
      * by exists (c :: a), b.
    + intros (a & b & H). destruct a as [|c' a]; simpl in H.
      * left. by exists b.
      * right. injection H as -> ->. by exists a, b.
Qed.

Lemma starts_with_weaken (q a x : text) :
  starts_with q a = true -> starts_with q (a ++ x) = true.
Proof.
  intros [t ->]%starts_with_prefix. rewrite <- app_assoc. apply starts_with_app.
Qed.

(** ** The matcher *)

Section MatcherFacts.
Import Re.

Lemma star_run {R} (a : cset) (s : text) (k : text -> option R) res :
  star a s k = Some res ->
  exists m s', s = m ++ s' /\ forallb (in_cset a) m = true /\
               k s' = Some res.
Proof.
  induction s as [|c s IH]; simpl; intros H.
  - by exists [], [].
  - destruct (in_cset a c) eqn:Hc; [|by exists [], (c :: s)].
    destruct (star a s k) as [res'|] eqn:E; [|by exists [], (c :: s)].
    destruct IH as (m & s' & -> & Hm & Hk); [done|].
    exists (c :: m), s'. simpl. rewrite Hc, Hm. split; [done|].
    split; [done | congruence].
Qed.

(** Whatever the rest of the pattern does, it runs on a proper suffix of
    the text the pattern was started on. *)
Lemma exec_inv {R} (r : regex) :
  forall (s : text) (g : captures) (k : text -> captures -> option R) res,
    exec r s g k = Some res ->
    exists m s' g', s = m ++ s' /\ m <> [] /\ k s' g' = Some res.
Proof.
  induction r as [a|a|r1 IH1 r2 IH2|i r IH]; intros s g k res; simpl.
  - destruct s as [|c s]; [done|]. destruct (in_cset a c); [|done].
    intros H. by exists [c], s, g.
  - destruct s as [|c s]; [done|]. destruct (in_cset a c); [|done].
    intros (m & s' & -> & _ & Hk)%star_run. by exists (c :: m), s', g.
  - intros (m1 & s1 & g1 & -> & Hm1 & H)%IH1.
    apply IH2 in H as (m2 & s2 & g2 & -> & Hm2 & H).
    exists (m1 ++ m2), s2, g2. rewrite <- app_assoc. split; [done|].
    split; [|done]. by destruct m1.
  - intros (m & s' & g' & -> & Hm & H)%IH. eauto 10.
Qed.

Lemma match_here_inv (r : regex) (s rest : text) (g : captures) :
  match_here r s = Some (rest, g) -> exists m, s = m ++ rest /\ m <> [].
Proof.
  intros (m & s' & g' & -> & Hm & H)%exec_inv. injection H as -> _. eauto.
Qed.

(** A capturing group around the whole pattern records the whole match. *)
Lemma match_here_group (i : nat) (r : regex) (s rest : text) (g : captures) :
  match_here (Grp i r) s = Some (rest, g) ->
  exists m, s = m ++ rest /\ m <> [] /\ g !! i = Some m.
Proof.
  unfold match_here. simpl.
  intros (m & s' & g' & -> & Hm & H)%exec_inv. injection H as -> <-.
  exists m. split; [done|]. split; [done|].
  rewrite lookup_insert_eq. f_equal.
  rewrite length_app, Nat.add_sub. by rewrite take_app_length.
Qed.

Lemma exec_lit_from {R} (p : text) :
  forall (c : ascii) (s : text) (g : captures)
         (k : text -> captures -> option R),
    exec (lit_from c p) s g k =
    if starts_with (c :: p) s then k (drop (S (length p)) s) g else None.
Proof.
  induction p as [|c' p IH]; intros c s g k; simpl.
  - destruct s as [|b s]; [done|]. simpl.
    rewrite andb_true_r, drop_0. done.
  - destruct s as [|b s]; [done|]. simpl.
    destruct (Ascii.eqb c b); simpl; [|done]. by rewrite IH.
Qed.

Lemma match_here_lit (str : string) (s : text) :
  txt str <> [] ->
  match_here (lit str) s =
  if starts_with (txt str) s then Some (drop (length (txt str)) s, ∅)
  else None.
Proof.
  unfold match_here, lit. destruct (txt str) as [|c p]; [done|]. intros _.
  by rewrite exec_lit_from.
Qed.

Lemma search_false (r : regex) (s : text) :
  search r s = false <-> forall i, match_here r (drop i s) = None.
Proof.
  induction s as [|c s IH]; simpl.
  - destruct (match_here r []) eqn:E.
    + split; [done | intros H; specialize (H 0); simpl in H; congruence].
    + split; [|done]. intros _ i. by rewrite drop_nil.
  - destruct (match_here r (c :: s)) eqn:E.
    + split; [done | intros H; specialize (H 0); simpl in H; congruence].
    + rewrite IH. split.
      * intros H [|i]; [done | apply H].
      * intros H i. apply (H (S i)).
Qed.

(** *** The scan *)

Lemma scan_nil (r : regex) (tpl : list titem) (n : nat) :
  scan r tpl n [] = [].
Proof. done. Qed.

Lemma scan_skip (r : regex) (tpl : list titem) (n : nat) (s : text) :
  scan r tpl n s = scan r tpl 0 (drop n s).
Proof.
  revert s. induction n as [|n IH]; intros s.
  - by rewrite drop_0.
  - destruct s as [|c s]; [done|]. simpl. apply IH.
Qed.

Lemma scan_match (r : regex) (tpl : list titem) (s rest : text) g :
  match_here r s = Some (rest, g) ->
  scan r tpl 0 s = expand tpl g ++ scan r tpl 0 rest.
Proof.
  intros H. destruct (match_here_inv _ _ _ _ H) as (m & -> & Hm).
  destruct m as [|c m]; [done|]. simpl app. simpl scan.
  change (c :: m ++ rest) with ((c :: m) ++ rest). rewrite H. f_equal.
  rewrite scan_skip. f_equal. simpl length. rewrite length_app.
  replace (S (length m + length rest) - length rest - 1) with (length m) by lia.
  by rewrite drop_app_length.
Qed.

Lemma scan_miss (r : regex) (tpl : list titem) (c : ascii) (s : text) :
  match_here r (c :: s) = None ->
  scan r tpl 0 (c :: s) = c :: scan r tpl 0 s.
Proof. intros H. simpl. by rewrite H. Qed.

(** Where the pattern is not found, the scan copies the text. *)
Lemma scan_no_match (r : regex) (tpl : list titem) (s : text) :
  search r s = false -> scan r tpl 0 s = s.
Proof.
  induction s as [|c s IH]; [done|]. simpl.
  destruct (match_here r (c :: s)); [done|]. intros H. by rewrite IH.
Qed.

Lemma expand_chars (cs : text) (g : captures) :
  expand (map TChr cs) g = cs.
Proof.
  unfold expand. induction cs as [|c cs IH]; [done|]. simpl. by rewrite IH.
Qed.

Lemma expand_group_chars (i : nat) (cs m : text) (g : captures) :
  g !! i = Some m -> expand (TGrp i :: map TChr cs) g = m ++ cs.
Proof.
  intros H. unfold expand. simpl. rewrite H. simpl. f_equal.
  apply (expand_chars cs g).
Qed.
End MatcherFacts.

(** ** Literals that a rewrite can neither create nor leave behind *)

Lemma apart_left (q chunk : text) (j : nat) :
  apart q chunk = true -> j < length q -> compat (drop j q) chunk = false.
Proof.
  unfold apart. rewrite !andb_true_iff. intros [[H _] _] Hj.
  rewrite forallb_forall in H. apply negb_true_iff, H, in_seq. lia.
Qed.

Lemma apart_right (q chunk : text) (j : nat) :
  apart q chunk = true -> j < length chunk -> compat (drop j chunk) q = false.
Proof.
  unfold apart. rewrite !andb_true_iff. intros [[_ H] _] Hj.
  rewrite forallb_forall in H. apply negb_true_iff, H, in_seq. lia.
Qed.

Lemma apart_nonempty (q chunk : text) :
  apart q chunk = true -> q <> [] /\ chunk <> [].
Proof.
  unfold apart. rewrite !andb_true_iff. intros [_ H].
  apply negb_true_iff in H. split; intros ->; unfold compat in H; simpl in H.
  - done.
  - by rewrite orb_true_r in H.
Qed.

Lemma compat_split (q a x : text) :
  starts_with q (a ++ x) = true -> compat q a = true.
Proof.
  intros [H | (_ & H & _)]%starts_with_split; unfold compat; rewrite H;
    [done | apply orb_true_r].
Qed.

Section Rewrite.
Import Re.

(** A rewrite whose replacement is the matched text (when [keeps]) or
    nothing, followed by a fixed [chunk]. *)
Variables (r : regex) (tpl : list titem) (keeps : bool) (chunk : text).

Hypothesis shape : forall (s rest : text) (g : captures),
  match_here r s = Some (rest, g) ->
  exists m, s = m ++ rest /\ m <> [] /\
            expand tpl g = (if keeps then m else []) ++ chunk.

Variable q : text.
Hypothesis q_apart : apart q chunk = true.

(** If [q] begins [a] followed by the rewritten text, it already began
    [a] followed by the original text. *)
Lemma scan_head (s : text) :
  forall a : text,
    starts_with q (a ++ scan r tpl 0 s) = true ->
    starts_with q (a ++ s) = true.
Proof.
  remember (length s) as n eqn:Hn. revert s Hn.
  induction n as [n IH] using lt_wf_ind. intros s Hn a H.
  destruct s as [|c s']; [done|].
  destruct (match_here r (c :: s')) as [[rest g]|] eqn:E.
  - destruct (shape _ _ _ E) as (m & Hs & Hm & Hexp).
    rewrite (scan_match _ _ _ _ _ E), Hexp in H.
    rewrite <- (app_assoc _ chunk), (app_assoc a) in H.
    apply starts_with_split in H as [H | (Hlen & _ & H)].
    + rewrite Hs. destruct keeps.
      * rewrite app_assoc. by apply starts_with_weaken.
      * rewrite app_nil_r in H. by apply starts_with_weaken.
    + apply compat_split in H. by rewrite apart_left in H.
  - rewrite (scan_miss _ _ _ _ E) in H.
    rewrite cons_middle, app_assoc in H |- *.
    apply (IH (length s')); [simpl in Hn; lia | done | done].
Qed.

(** The rewritten text is free of [q] when every occurrence of [q] in the
    original is the start of a match that the rewrite does not keep. *)
Lemma scan_free (s : text) :
  (forall i, starts_with q (drop i s) = true ->
             keeps = false /\ is_Some (match_here r (drop i s))) ->
  forall i, starts_with q (drop i (scan r tpl 0 s)) = false.
Proof.
  remember (length s) as n eqn:Hn. revert s Hn.
  induction n as [n IH] using lt_wf_ind. intros s Hn Hq i.
  destruct (apart_nonempty _ _ q_apart) as [Hne _].
  destruct s as [|c s'].
  { rewrite scan_nil, drop_nil. by destruct q. }
  destruct (starts_with q (drop i (scan r tpl 0 (c :: s')))) eqn:Hi; [|done].
  exfalso.
  destruct (match_here r (c :: s')) as [[rest g]|] eqn:E.
  - destruct (shape _ _ _ E) as (m & Hs & Hm & Hexp).
    rewrite (scan_match _ _ _ _ _ E), Hexp, <- app_assoc in Hi.
    set (keep := if keeps then m else []) in *.
    destruct (decide (i < length keep)) as [Hlt|Hge].
    + rewrite drop_app_le in Hi by lia.
      apply starts_with_split in Hi as [Hi | (Hlen & _ & Hi)].
      * assert (keeps = true) as Hk
          by (destruct keeps; [done | simpl in Hlt; lia]).
        assert (starts_with q (drop i (c :: s')) = true) as Hocc.
        { rewrite Hs, drop_app_le by (subst keep; rewrite Hk in Hlt; lia).
          apply starts_with_weaken. subst keep. by rewrite Hk in Hi. }
        apply Hq in Hocc as [Hk' _]. congruence.
      * apply compat_split in Hi. by rewrite apart_left in Hi.
    + rewrite drop_app_ge in Hi by lia.
      destruct (decide (i - length keep < length chunk)) as [Hlt|Hge'].
      * rewrite drop_app_le in Hi by lia.
        apply compat_split in Hi.
        assert (compat (drop (i - length keep) chunk) q = false) as Hc
          by by apply apart_right.
        unfold compat in *. rewrite orb_comm in Hi. congruence.
      * rewrite drop_app_ge in Hi by lia.
        assert (length rest < n) as Hrest.
        { subst n. rewrite Hs, length_app. destruct m; [done | simpl; lia]. }
        rewrite (IH (length rest) Hrest rest eq_refl) in Hi; [done|].
        intros j Hj. specialize (Hq (length m + j)).
        rewrite Hs, drop_app_ge, Nat.add_comm, Nat.add_sub in Hq by lia.
        by apply Hq.
  - rewrite (scan_miss _ _ _ _ E) in Hi. destruct i as [|i].
    + rewrite drop_0 in Hi. apply (scan_head s' [c]) in Hi.
      destruct (Hq 0) as [_ [x Hx]]; [done|]. simpl in Hx. congruence.
    + simpl in Hi.
      rewrite (IH (length s')) in Hi; [done | simpl in Hn; lia | done |].
      intros j Hj. apply (Hq (S j)). done.
Qed.

(** A literal the text is free of stays absent through the rewrite. *)
Lemma scan_preserves_free (s : text) :
  occurs q s = false -> occurs q (scan r tpl 0 s) = false.
Proof.
  rewrite !occurs_false. intros H. apply scan_free.
  intros i Hi. rewrite H in Hi. done.
Qed.
End Rewrite.

(** ** The four rewrites *)

Section Rules.
Import Re.

Lemma category_of_labels (tool : string) : In (category_of tool) labels.
Proof.
  unfold category_of, categories, labels. rewrite !lookup_insert.
  repeat case_decide; simpl; tauto.
Qed.

Lemma fix_imports_scan (s : text) :
  fix_imports s = Some (replace_all import_pat import_repl s).
Proof. reflexivity. Qed.

Lemma fix_metadata_scan (s : text) :
  fix_metadata s = Some (replace_all metadata_pat metadata_repl s).
Proof. reflexivity. Qed.

Lemma fix_execute_scan (s : text) :
  fix_execute s = Some (replace_all execute_pat execute_repl s).
Proof. reflexivity. Qed.

Lemma description_template (category : string) :
  In category labels ->
  parse_template 1 (description_repl category) =
  Some (TGrp 1 :: map TChr (category_field category)).
Proof. intros [<-|[<-|[<-|[<-|[]]]]]; vm_compute; reflexivity. Qed.

Lemma add_category_scan (category : string) (s : text) :
  In category labels ->
  add_category category s = Some (insert_category category s).
Proof.
  intros H. unfold add_category, sub.
  change (groups description_re) with 1.
  by rewrite (description_template _ H).
Qed.

Lemma search_lit (pat : string) (s : text) :
  txt pat <> [] -> search (lit pat) s = occurs (txt pat) s.
Proof.
  intros Hne. induction s as [|c s IH]; simpl search; simpl occurs;
    rewrite match_here_lit by done.
  - destruct (starts_with (txt pat) []); done.
  - destruct (starts_with (txt pat) (c :: s)); [done|]. by rewrite IH.
Qed.

Lemma lit_shape (pat : string) (repl : text) :
  txt pat <> [] ->
  forall (s rest : text) (g : captures),
    match_here (lit pat) s = Some (rest, g) ->
    exists m, s = m ++ rest /\ m <> [] /\
              expand (map TChr repl) g = (if false then m else []) ++ repl.
Proof.
  intros Hne s rest g H. rewrite match_here_lit in H by done.
  destruct (starts_with (txt pat) s) eqn:E; [|done]. injection H as <- _.
  exists (txt pat). split; [by apply starts_with_drop|]. split; [done|].
  apply expand_chars.
Qed.

Lemma description_shape (category : string) :
  forall (s rest : text) (g : captures),
    match_here description_re s = Some (rest, g) ->
    exists m, s = m ++ rest /\ m <> [] /\
              expand (TGrp 1 :: map TChr (category_field category)) g =
              (if true then m else []) ++ category_field category.
Proof.
  intros s rest g (m & Hs & Hm & Hg)%match_here_group.
  exists m. split; [done|]. split; [done|]. by apply expand_group_chars.
Qed.

(** A literal rewrite leaves no occurrence of its own pattern when the
    pattern cannot overlap the replacement. *)
Lemma replace_all_removes (pat : string) (repl s : text) :
  apart (txt pat) repl = true ->
  occurs (txt pat) (replace_all pat repl s) = false.
Proof.
  intros Hap. destruct (apart_nonempty _ _ Hap) as [Hne _].
  apply occurs_false.
  apply (scan_free (lit pat) (map TChr repl) false repl
           (lit_shape pat repl Hne) (txt pat) Hap).
  intros i Hi. split; [done|]. rewrite match_here_lit, Hi by done. eauto.
Qed.

Lemma replace_all_preserves (pat : string) (repl q s : text) :
  txt pat <> [] -> apart q repl = true ->
  occurs q s = false -> occurs q (replace_all pat repl s) = false.
Proof.
  intros Hne Hap.
  exact (scan_preserves_free _ _ false repl (lit_shape pat repl Hne) q Hap s).
Qed.

Lemma insert_category_preserves (category : string) (q s : text) :
  apart q (category_field category) = true ->
  occurs q s = false -> occurs q (insert_category category s) = false.
Proof.
  intros Hap.
  exact (scan_preserves_free _ _ true (category_field category)
           (description_shape category) q Hap s).
Qed.

Lemma replace_all_absent (pat : string) (repl s : text) :
  txt pat <> [] -> occurs (txt pat) s = false -> replace_all pat repl s = s.
Proof.
  intros Hne H. apply scan_no_match. by rewrite search_lit.
Qed.

Lemma replace_all_idem (pat : string) (repl s : text) :
  apart (txt pat) repl = true ->
  replace_all pat repl (replace_all pat repl s) = replace_all pat repl s.
Proof.
  intros Hap. destruct (apart_nonempty _ _ Hap) as [Hne _].
  apply replace_all_absent; [done|]. by apply replace_all_removes.
Qed.
End Rules.

Lemma occurs_around (q chunk a b : text) :
  apart q chunk = true ->
  occurs q a = false -> occurs q b = false ->
  occurs q (a ++ chunk ++ b) = false.
Proof.
  intros Hap Ha Hb. rewrite occurs_false in *. intros i.
  destruct (starts_with q (drop i (a ++ chunk ++ b))) eqn:Hi; [|done].
  exfalso. destruct (decide (i < length a)) as [Hlt|Hge].
  - rewrite drop_app_le in Hi by lia.
    apply starts_with_split in Hi as [Hi | (Hlen & _ & Hi)].
    + by rewrite Ha in Hi.
    + apply compat_split in Hi. by rewrite apart_left in Hi.
  - rewrite drop_app_ge in Hi by lia.
    destruct (decide (i - length a < length chunk)) as [Hlt|Hge'].
    + rewrite drop_app_le in Hi by lia. apply compat_split in Hi.
      assert (compat (drop (i - length a) chunk) q = false) as Hc
        by by apply apart_right.
      unfold compat in *. rewrite orb_comm in Hi. congruence.
    + rewrite drop_app_ge in Hi by lia. by rewrite Hb in Hi.
Qed.

(** The three literal patterns against their own replacements. *)
Lemma import_apart : apart (txt import_pat) import_repl = true.
Proof. vm_compute. reflexivity. Qed.

Lemma metadata_apart : apart (txt metadata_pat) metadata_repl = true.
Proof. vm_compute. reflexivity. Qed.

Lemma execute_apart : apart (txt execute_pat) execute_repl = true.
Proof. vm_compute. reflexivity. Qed.

(** ** The description pattern, read off the matcher *)

Lemma star_greedy {R} (a : Re.cset) (body x : text) (k : text -> option R) :
  forallb (Re.in_cset a) body = true ->
  match x with [] => True | c :: _ => Re.in_cset a c = false end ->
  (forall c y, Re.in_cset a c = true -> k (c :: y) = None) ->
  Re.star a (body ++ x) k = k x.
Proof.
  intros Hb Hx Hk. induction body as [|c body IH]; simpl in *.
  - destruct x as [|c x]; [done|]. simpl. by rewrite Hx.
  - apply andb_true_iff in Hb as [Hc Hb]. rewrite Hc, IH by done.
    destruct (k x) eqn:E; [done|]. by rewrite Hk.
Qed.

Lemma exec_lit {R} (str : string) (s : text) (g : Re.captures)
    (k : text -> Re.captures -> option R) :
  txt str <> [] ->
  Re.exec (Re.lit str) s g k =
  if starts_with (txt str) s then k (drop (length (txt str)) s) g else None.
Proof.
  unfold Re.lit. destruct (txt str) as [|c p]; [done|]. intros _.
  by rewrite exec_lit_from.
Qed.

Lemma description_exec {R} (q1 q2 : ascii) (body rest : text) (g : Re.captures)
    (k : text -> Re.captures -> option R) :
  is_quote q1 = true -> is_quote q2 = true ->
  body <> [] -> forallb (fun c => negb (is_quote c)) body = true ->
  Re.exec description_inner (description_field q1 q2 body ++ rest) g k =
  k rest g.
Proof.
  intros H1 H2 Hne Hb. unfold description_inner, description_field.
  cbn [Re.exec]. rewrite exec_lit by done. rewrite <- app_assoc.
  rewrite starts_with_app, drop_app_length.
  destruct body as [|b body]; [done|].
  simpl in Hb. apply andb_true_iff in Hb as [Hb0 Hb].
  cbn [app].
  change (Re.in_cset (Re.OneOf [squote; dquote]) q1) with (is_quote q1).
  change (Re.in_cset (Re.NoneOf [squote; dquote]) b) with (negb (is_quote b)).
  rewrite H1, Hb0, <- app_assoc.
  rewrite star_greedy; [| exact Hb | |]; cbn [app].
  - change (Re.in_cset (Re.OneOf [squote; dquote]) q2) with (is_quote q2).
    by rewrite H2.
  - change (Re.in_cset (Re.NoneOf [squote; dquote]) q2) with (negb (is_quote q2)).
    by rewrite H2.
  - intros c y Hc.
    change (Re.in_cset (Re.NoneOf [squote; dquote]) c) with (negb (is_quote c)) in Hc.
    change (Re.in_cset (Re.OneOf [squote; dquote]) c) with (is_quote c).
    apply negb_true_iff in Hc. by rewrite Hc.
Qed.

Lemma description_matches (q1 q2 : ascii) (body rest : text) :
  is_quote q1 = true -> is_quote q2 = true ->
  body <> [] -> forallb (fun c => negb (is_quote c)) body = true ->
  Re.match_here description_re (description_field q1 q2 body ++ rest) =
  Some (rest, {[ 1 := description_field q1 q2 body ]}).
Proof.
  intros H1 H2 Hne Hb. unfold Re.match_here, description_re. cbn [Re.exec].
  rewrite description_exec by done.
  by rewrite length_app, Nat.add_sub, take_app_length.
Qed.

(** A match begins with the key. *)
Lemma description_match_key (s : text) :
  starts_with (txt "description: ") s = false ->
  Re.match_here description_re s = None.
Proof.
  intros H. unfold Re.match_here, description_re, description_inner.
  cbn [Re.exec]. rewrite exec_lit by done. by rewrite H.
Qed.

Lemma find_none (r : Re.regex) (s : text) :
  find r s = None <-> Re.search r s = false.
Proof.
  induction s as [|c s IH]; simpl.
  - destruct (Re.match_here r []) as [[? ?]|]; done.
  - destruct (Re.match_here r (c :: s)) as [[? ?]|]; [done|].
    rewrite <- IH. destruct (find r s) as [[[? ?] ?]|]; done.
Qed.

Lemma match_here_take (r : Re.regex) (s rest : text) (g : Re.captures) :
  Re.match_here r s = Some (rest, g) ->
  s = take (length s - length rest) s ++ rest.
Proof.
  intros (m & -> & _)%match_here_inv.
  by rewrite length_app, Nat.add_sub, take_app_length.
Qed.

Lemma find_split (r : Re.regex) (s a m b : text) :
  find r s = Some (a, m, b) -> s = a ++ m ++ b.
Proof.
  revert a. induction s as [|c s IH]; intros a; cbn [find].
  - destruct (Re.match_here r []) as [[rest g]|] eqn:E; [|done].
    by apply match_here_inv in E as ([|? ?] & ? & ?).
  - destruct (Re.match_here r (c :: s)) as [[rest g]|] eqn:E.
    + intros H. injection H as <- <- <-. by apply match_here_take in E.
    + destruct (find r s) as [[[a' m'] b']|]; [|done].
      intros H. injection H as <- <- <-. simpl. f_equal. by apply IH.
Qed.

(** The scan, unfolded at the first match. *)
Lemma scan_find (r : Re.regex) (tpl : list Re.titem) (s a m b : text) :
  find r s = Some (a, m, b) ->
  exists g, Re.match_here r (m ++ b) = Some (b, g) /\
            Re.scan r tpl 0 s = a ++ Re.expand tpl g ++ Re.scan r tpl 0 b.
Proof.
  revert a. induction s as [|c s IH]; intros a.
  - simpl. destruct (Re.match_here r []) as [[rest g]|] eqn:E; [|done].
    by apply match_here_inv in E as ([|? ?] & ? & ?).
  - cbn [find]. destruct (Re.match_here r (c :: s)) as [[rest g]|] eqn:E.
    + intros H. injection H as <- <- <-. exists g.
      change (S (length s)) with (length (c :: s)).
      rewrite <- (match_here_take _ _ _ _ E). split; [done|].
      by apply scan_match.
    + destruct (find r s) as [[[a' m'] b']|] eqn:F; [|done].
      intros H. injection H as <- <- <-.
      destruct (IH a' eq_refl) as (g & Hm & Hscan). exists g.
      split; [done|]. rewrite (scan_miss _ _ _ _ E), Hscan. done.
Qed.

Lemma offsets_complete (p s : text) :
  p <> [] ->
  forall j k, starts_with p (drop j s) = true -> In (k + j) (offsets p s k).
Proof.
  intros Hne. induction s as [|c s IH]; intros j k H.
  - rewrite drop_nil in H. by destruct p.
  - simpl. destruct j as [|j].
    + rewrite drop_0 in H. rewrite H, Nat.add_0_r. by left.
    + apply in_or_app. right. rewrite <- Nat.add_succ_comm. by apply IH.
Qed.

Lemma fix_content_scan (tool : string) (s : text) :
  fix_content tool s =
  Some (replace_all execute_pat execute_repl
         (insert_category (category_of tool)
           (replace_all metadata_pat metadata_repl
             (replace_all import_pat import_repl s)))).
Proof.
  unfold fix_content.
  rewrite fix_imports_scan. cbn [mbind option_bind].
  rewrite fix_metadata_scan. cbn [mbind option_bind].
  rewrite add_category_scan by apply category_of_labels.
  cbn [mbind option_bind]. apply fix_execute_scan.
Qed.

Lemma add_category_no_match (tool : string) (s : text) :
  Re.search description_re s = false ->
  add_category (category_of tool) s = Some s.
Proof.
  intros H. rewrite add_category_scan by apply category_of_labels. f_equal.
  by apply scan_no_match.
Qed.

(** ** Running the rewrites twice *)

Lemma import_apart_next :
  apart (txt import_pat) metadata_repl = true /\
  apart (txt import_pat) execute_repl = true /\
  apart (txt metadata_pat) execute_repl = true.
Proof. repeat split; vm_compute; reflexivity. Qed.

Lemma category_field_apart (category : string) :
  In category labels ->
  apart (txt import_pat) (category_field category) = true /\
  apart (txt metadata_pat) (category_field category) = true /\
  apart (txt execute_pat) (category_field category) = true.
Proof.
  intros [<-|[<-|[<-|[<-|[]]]]]; repeat split; vm_compute; reflexivity.
Qed.

(** The output of the four rewrites holds none of the three literal
    patterns. *)
Lemma fix_content_free (tool : string) (s once : text) :
  fix_content tool s = Some once ->
  occurs (txt import_pat) once = false /\
  occurs (txt metadata_pat) once = false /\
  occurs (txt execute_pat) once = false.
Proof.
  rewrite fix_content_scan. intros [= <-].
  destruct import_apart_next as (H12 & H14 & H24).
  destruct (category_field_apart _ (category_of_labels tool))
    as (H13 & H23 & H43).
  split; [|split].
  - apply replace_all_preserves; [done | done |].
    apply insert_category_preserves; [done|].
    apply replace_all_preserves; [done | done |].
    apply replace_all_removes, import_apart.
  - apply replace_all_preserves; [done | done |].
    apply insert_category_preserves; [done|].
    apply replace_all_removes, metadata_apart.
  - apply replace_all_removes, execute_apart.
Qed.

(** ** What the category rewrite matches, and where it inserts *)

Lemma description_inner_inv {R} (s : text) (g : Re.captures)
    (k : text -> Re.captures -> option R) res :
  Re.exec description_inner s g k = Some res ->
  exists q1 q2 body rest,
    s = description_field q1 q2 body ++ rest /\
    is_quote q1 = true /\ is_quote q2 = true /\ body <> [] /\
    forallb (fun c => negb (is_quote c)) body = true /\
    k rest g = Some res.
Proof.
  unfold description_inner. cbn [Re.exec]. rewrite exec_lit by done.
  destruct (starts_with (txt "description: ") s) eqn:Hkey; [|done].
  apply starts_with_drop in Hkey. revert Hkey.
  generalize (drop (length (txt "description: ")) s). intros s1 ->.
  destruct s1 as [|q1 [|b s3]]; cbn [app].
  - done.
  - by destruct (Re.in_cset _ q1).
  - change (Re.in_cset (Re.OneOf [squote; dquote]) q1) with (is_quote q1).
    change (Re.in_cset (Re.NoneOf [squote; dquote]) b) with (negb (is_quote b)).
    destruct (is_quote q1) eqn:H1; [|done].
    destruct (negb (is_quote b)) eqn:Hb; [|done].
    intros (m & s' & -> & Hm & Hk)%star_run.
    destruct s' as [|q2 [|comma rest]]; [done| |].
    { by destruct (Re.in_cset _ q2). }
    change (Re.in_cset (Re.OneOf [squote; dquote]) q2) with (is_quote q2) in Hk.
    destruct (is_quote q2) eqn:H2; [|done].
    destruct (Re.in_cset (Re.Lit ","%char) comma) eqn:Hc; [|done].
    cbn [Re.in_cset] in Hc. apply Ascii.eqb_eq in Hc as <-.
    exists q1, q2, (b :: m), rest. unfold description_field.
    repeat split; try done.
    + rewrite <- app_assoc. cbn [app]. do 3 f_equal.
      by rewrite <- app_assoc.
    + simpl. by rewrite Hb.
Qed.

(** A match is a description field, and nothing else is. *)
Lemma description_match_inv (s rest : text) (g : Re.captures) :
  Re.match_here description_re s = Some (rest, g) ->
  exists q1 q2 body,
    s = description_field q1 q2 body ++ rest /\
    is_quote q1 = true /\ is_quote q2 = true /\ body <> [] /\
    forallb (fun c => negb (is_quote c)) body = true.
Proof.
  unfold Re.match_here, description_re. cbn [Re.exec].
  intros (q1 & q2 & body & rest' & -> & H1 & H2 & Hne & Hb & Hk)%description_inner_inv.
  injection Hk as -> _. by exists q1, q2, body.
Qed.

(** The scan copies a stretch in which no match begins. *)
Lemma scan_pass (r : Re.regex) (tpl : list Re.titem) (x b : text) :
  (forall i, i < length x -> Re.match_here r (drop i (x ++ b)) = None) ->
  Re.scan r tpl 0 (x ++ b) = x ++ Re.scan r tpl 0 b.
Proof.
  induction x as [|c x IH]; intros H; [done|].
  cbn [app]. rewrite scan_miss by (apply (H 0); simpl; lia).
  f_equal. apply IH. intros i Hi. apply (H (S i)). simpl. lia.
Qed.

Lemma no_key_begins (x b : text) :
  forallb (fun c => negb (Ascii.eqb "d" c)) x = true ->
  forall i, i < length x ->
            Re.match_here description_re (drop i (x ++ b)) = None.
Proof.
  revert b. induction x as [|c x IH]; intros b H i Hi; [simpl in Hi; lia|].
  simpl in H. apply andb_true_iff in H as [Hc H]. destruct i as [|i].
  - apply description_match_key. simpl.
    apply negb_true_iff in Hc. by rewrite Hc.
  - simpl. apply IH; [done | simpl in Hi; lia].
Qed.

Lemma category_field_no_key (category : string) :
  In category labels ->
  forallb (fun c => negb (Ascii.eqb "d" c)) (category_field category) = true.
Proof. intros [<-|[<-|[<-|[<-|[]]]]]; vm_compute; reflexivity. Qed.

Lemma fmap_some {A B} (f : A -> B) (x : A) : f <$> Some x = Some (f x).
Proof. reflexivity. Qed.

(** ** The loop *)

Lemma append_inj (p t1 t2 : string) : p +:+ t1 = p +:+ t2 -> t1 = t2.
Proof. induction p as [|c p IH]; [done|]. intros [= H]. by apply IH. Qed.

Lemma filepath_inj (t1 t2 : string) : filepath t1 = filepath t2 -> t1 = t2.
Proof. apply append_inj. Qed.

Lemma report_inj (t1 t2 : string) : report t1 = report t2 -> t1 = t2.
Proof. apply append_inj. Qed.

Lemma fix_content_total (tool : string) (s : text) :
  is_Some (fix_content tool s).
Proof. rewrite fix_content_scan. eauto. Qed.

(** One iteration never fails; it reports and rewrites the file of its
    identifier when there is one, and touches nothing else. *)
Lemma fix_tool_spec (tool : string) (w : world) :
  exists w',
    fix_tool tool w = Some w' /\
    stdout w' =
      stdout w ++ (if present (files w) tool then [report tool] else []) /\
    files w' !! filepath tool = files w !! filepath tool ≫= fix_content tool /\
    (forall p, p <> filepath tool -> files w' !! p = files w !! p).
Proof.
  unfold fix_tool, present.
  destruct (files w !! filepath tool) as [content|] eqn:E.
  - destruct (fix_content_total tool content) as [content' Hc].
    rewrite Hc. cbn [mbind option_bind]. eexists. split; [done|].
    cbn [files stdout]. rewrite bool_decide_eq_true_2 by eauto.
    split; [done|]. split; [by rewrite lookup_insert_eq|].
    intros p Hp. by rewrite lookup_insert_ne.
  - exists w. rewrite E. split; [done|].
    rewrite bool_decide_eq_false_2 by (intros [? ?]; done).
    by rewrite app_nil_r.
Qed.

Lemma fix_tool_present (tool t : string) (w w' : world) :
  fix_tool tool w = Some w' -> present (files w') t = present (files w) t.
Proof.
  intros H. destruct (fix_tool_spec tool w) as (w1 & H1 & _ & Hsame & Hother).
  assert (w1 = w') as -> by congruence. unfold present.
  destruct (decide (filepath t = filepath tool)) as [->|Hne].
  - rewrite Hsame. destruct (files w !! filepath tool) as [c|]; [|done].
    cbn [mbind option_bind]. destruct (fix_content_total tool c) as [c' ->].
    by rewrite !bool_decide_eq_true_2 by eauto.
  - by rewrite Hother.
Qed.

Lemma fix_tools_spec (ts : list string) :
  forall w : world,
  exists w',
    fix_tools ts w = Some w' /\
    stdout w' = stdout w ++ map report (List.filter (present (files w)) ts) /\
    (forall p, (forall t, In t ts -> p <> filepath t) ->
               files w' !! p = files w !! p) /\
    (NoDup ts ->
     forall t, In t ts ->
               files w' !! filepath t = files w !! filepath t ≫= fix_content t).
Proof.
  induction ts as [|tool ts IH]; intros w.
  - exists w. simpl. rewrite app_nil_r. by repeat split.
  - destruct (fix_tool_spec tool w) as (w1 & H1 & Hout1 & Hsame1 & Hother1).
    destruct (IH w1) as (w' & H' & Hout' & Hother' & Hin').
    exists w'. cbn [fix_tools]. rewrite H1. cbn [mbind option_bind].
    split; [done|]. split; [|split].
    + rewrite Hout', Hout1, <- app_assoc. f_equal. cbn [List.filter].
      rewrite (filter_ext (present (files w1)) (present (files w)))
        by (intros t; by apply (fix_tool_present tool)).
      by destruct (present (files w) tool).
    + intros p Hp. rewrite Hother', Hother1; [done | |].
      * apply Hp. by left.
      * intros t Ht. apply Hp. by right.
    + intros Hnd t Ht. apply NoDup_cons in Hnd as [Hnotin Hnd].
      destruct Ht as [<-|Ht].
      * rewrite Hother'; [done|].
        intros t Ht Heq. apply filepath_inj in Heq as <-.
        apply Hnotin. by apply list_elem_of_In.
      * rewrite (Hin' Hnd t Ht), Hother1; [done|].
        intros Heq. apply filepath_inj in Heq as ->.
        apply Hnotin. by apply list_elem_of_In.
Qed.

Lemma run_spec (ts : list string) (fs : gmap string text) :
  exists w,
    run ts fs = Some w /\
    stdout w = map report (List.filter (present fs) ts) ++ ["All tools fixed!"] /\
    (forall p, (forall t, In t ts -> p <> filepath t) ->
               files w !! p = fs !! p) /\
    (NoDup ts ->
     forall t, In t ts ->
               files w !! filepath t = fs !! filepath t ≫= fix_content t).
Proof.
  destruct (fix_tools_spec ts (World fs [])) as (w & H & Hout & Hother & Hin).
  eexists. unfold run. rewrite H. cbn [mbind option_bind].
  split; [done|]. cbn [files stdout] in *. by rewrite Hout.
Qed.

Lemma tools_distinct : NoDup tools.
Proof. apply (bool_decide_unpack _). vm_compute. reflexivity. Qed.

Lemma report_not_summary (t : string) : report t <> "All tools fixed!".
Proof. unfold report. discriminate. Qed.

Lemma scan_sublist (r : Re.regex) (tpl : list Re.titem) (chunk : text) :
  (forall (s rest : text) (g : Re.captures),
     Re.match_here r s = Some (rest, g) ->
     exists m, s = m ++ rest /\ m <> [] /\
               Re.expand tpl g = (if true then m else []) ++ chunk) ->
  forall s : text, s `sublist_of` Re.scan r tpl 0 s.
Proof.
  intros shape s. remember (length s) as n eqn:Hn. revert s Hn.
  induction n as [n IH] using lt_wf_ind. intros s Hn.
  destruct s as [|c s']; [done|].
  destruct (Re.match_here r (c :: s')) as [[rest g]|] eqn:E.
  - destruct (shape _ _ _ E) as (m & Hs & Hm & Hexp).
    rewrite (scan_match _ _ _ _ _ E), Hexp, Hs, <- app_assoc.
    apply sublist_app; [done|]. apply sublist_inserts_l.
    apply (IH (length rest)); [|done].
    subst n. rewrite Hs, length_app. destruct m; [done | simpl; lia].
  - rewrite (scan_miss _ _ _ _ E). apply sublist_skip.
    apply (IH (length s')); [simpl in Hn; lia | done].
Qed.

Lemma category_field_nonempty (category : string) :
  In category labels -> 0 < length (category_field category).
Proof. intros [<-|[<-|[<-|[<-|[]]]]]; vm_compute; lia. Qed.

(** Where the description pattern is found, the category rewrite gives a
    longer text. *)
Lemma add_category_longer (tool : string) (s : text) :
  Re.search description_re s = true ->
  exists out,
    add_category (category_of tool) s = Some out /\ length s < length out.
Proof.
  intros Hs. pose proof (category_of_labels tool) as Hl.
  rewrite add_category_scan by done. eexists. split; [done|].
  destruct (find description_re s) as [[[a m] b]|] eqn:Hf;
    [|apply find_none in Hf; congruence].
  unfold insert_category.
  destruct (scan_find _ (Re.TGrp 1 :: map Re.TChr
                           (category_field (category_of tool)))
              _ _ _ _ Hf) as (g & Hm & ->).
  pose proof (find_split _ _ _ _ _ Hf) as ->.
  destruct (match_here_group _ _ _ _ _ Hm) as (m' & Heq & _ & Hg).
  apply app_inv_tail in Heq as <-.
  rewrite (expand_group_chars _ _ _ _ Hg).
  pose proof (sublist_length _ _
    (scan_sublist _ _ (category_field (category_of tool))
       (description_shape _) b)) as Hlen.
  pose proof (category_field_nonempty _ Hl) as Hcf.
  rewrite !length_app. lia.
Qed.

(** * The properties of the specification *)

(** C1, as the code has it.  For every identifier and every text the four
    rewrites succeed, and on their output the import, metadata and
    signature rewrites change nothing, so that a second run does what the
    category rewrite alone does to the first output.  A second run is
    therefore without effect exactly where the description pattern is not
    found in the first output: where it is found, the second run gives a
    longer text.  On the worked example the first run puts the category
    field after the description field, and the second run puts a second
    one next to it. *)
Theorem fix_content_twice (tool : string) (content : text) :
  (exists once,
     fix_content tool content = Some once /\
     fix_imports once = Some once /\
     fix_metadata once = Some once /\
     fix_execute once = Some once /\
     fix_content tool once = add_category (category_of tool) once /\
     (fix_content tool once = Some once <->
      Re.search description_re once = false)) /\
  fix_content "DatabaseSchemaTool.ts" legacy_module =
    Some (fixed_head ++ category_field "Database" ++ fixed_tail) /\
  fix_content "DatabaseSchemaTool.ts"
    (fixed_head ++ category_field "Database" ++ fixed_tail) =
    Some (fixed_head ++ category_field "Database" ++
          category_field "Database" ++ fixed_tail).
Proof.
  split; [|split; vm_compute; reflexivity].
  destruct (fix_content tool content) as [once|] eqn:Honce;
    [|by rewrite fix_content_scan in Honce].
  exists once. split; [done|].
  destruct (fix_content_free _ _ _ Honce) as (F1 & F2 & F4).
  assert (fix_imports once = Some once) as E1.
  { rewrite fix_imports_scan. f_equal. by apply replace_all_absent. }
  assert (fix_metadata once = Some once) as E2.
  { rewrite fix_metadata_scan. f_equal. by apply replace_all_absent. }
  assert (fix_execute once = Some once) as E4.
  { rewrite fix_execute_scan. f_equal. by apply replace_all_absent. }
  assert (fix_content tool once = add_category (category_of tool) once) as E.
  { unfold fix_content. rewrite E1. cbn [mbind option_bind].
    rewrite E2. cbn [mbind option_bind].
    rewrite add_category_scan by apply category_of_labels.
    cbn [mbind option_bind]. rewrite fix_execute_scan. f_equal.
    apply replace_all_absent; [done|].
    apply insert_category_preserves; [|done].
    apply category_field_apart, category_of_labels. }
  do 4 (split; [done|]). rewrite E. split.
  - intros H. destruct (Re.search description_re once) eqn:Hs; [|done].
    destruct (add_category_longer tool once Hs) as (out & Hout & Hlen).
    rewrite Hout in H. injection H as ->. lia.
  - by apply add_category_no_match.
Qed.

Lemma fix_content_twice_witness :
  exists once,
    fix_content "DatabaseSchemaTool.ts" undescribed_module = Some once /\
    once <> undescribed_module /\
    fix_content "DatabaseSchemaTool.ts" once = Some once.
Proof.
  destruct (proj1 (fix_content_twice "DatabaseSchemaTool.ts"
                     undescribed_module))
    as (once & H1 & _ & _ & _ & _ & H).
  exists once. split; [exact H1|].
  vm_compute in H1. injection H1 as <-.
  split; [discriminate|]. apply H. vm_compute. reflexivity.
Defined.

(** C1, as stated, fails on the worked example: the second run does not
    leave the output of the first run unchanged. *)
Lemma fix_content_not_idempotent :
  (once ← fix_content "DatabaseSchemaTool.ts" legacy_module;
   fix_content "DatabaseSchemaTool.ts" once) <>
  fix_content "DatabaseSchemaTool.ts" legacy_module.
Proof.
  intros H. apply (f_equal (fmap length)) in H. vm_compute in H.
  discriminate H.
Qed.

(** C2, as the code has it.  The category rewrite puts the category field
    immediately after every description field of the text, not after the
    first one only: where the pattern is not found the text is unchanged;
    otherwise the first match is a description field, the category field
    follows it, and the text after it is rewritten in the same way.  It
    does not look for a category field that is already there: after a
    description field that has one, a second one is inserted. *)
Theorem add_category_every_description (tool : string) (s : text) :
  (find description_re s = None ->
   add_category (category_of tool) s = Some s) /\
  (forall a m b,
     find description_re s = Some (a, m, b) ->
     (exists q1 q2 body,
        m = description_field q1 q2 body /\
        is_quote q1 = true /\ is_quote q2 = true /\ body <> [] /\
        forallb (fun c => negb (is_quote c)) body = true) /\
     add_category (category_of tool) s =
     (fun rest => a ++ m ++ category_field (category_of tool) ++ rest)
       <$> add_category (category_of tool) b) /\
  (forall q1 q2 body,
     is_quote q1 = true -> is_quote q2 = true -> body <> [] ->
     forallb (fun c => negb (is_quote c)) body = true ->
     add_category (category_of tool)
       (description_field q1 q2 body ++
        category_field (category_of tool) ++ s) =
     (fun rest => description_field q1 q2 body ++
                  category_field (category_of tool) ++
                  category_field (category_of tool) ++ rest)
       <$> add_category (category_of tool) s).
Proof.
  pose proof (category_of_labels tool) as Hc.
  split; [|split].
  - intros H. apply add_category_no_match. by apply find_none.
  - intros a m b Hf.
    destruct (scan_find _ (Re.TGrp 1 :: map Re.TChr
                             (category_field (category_of tool)))
                _ _ _ _ Hf) as (g & Hm & Hscan).
    split.
    + destruct (description_match_inv _ _ _ Hm)
        as (q1 & q2 & body & Heq & H1 & H2 & Hne & Hb).
      apply app_inv_tail in Heq. by exists q1, q2, body.
    + rewrite !add_category_scan by done. rewrite fmap_some. f_equal.
      unfold insert_category at 1. rewrite Hscan. f_equal.
      destruct (match_here_group _ _ _ _ _ Hm) as (m' & Heq & _ & Hg).
      apply app_inv_tail in Heq as <-.
      rewrite (expand_group_chars _ _ _ _ Hg). by rewrite <- app_assoc.
  - intros q1 q2 body H1 H2 Hne Hb.
    rewrite !add_category_scan by done. rewrite fmap_some. f_equal.
    unfold insert_category at 1.
    rewrite (scan_match _ _ _ _ _ (description_matches _ _ _ _ H1 H2 Hne Hb)).
    rewrite (expand_group_chars 1 _ (description_field q1 q2 body))
      by apply lookup_singleton_eq.
    rewrite <- app_assoc. do 2 f_equal.
    apply scan_pass, no_key_begins. by apply category_field_no_key.
Qed.

Lemma add_category_every_description_witness :
  add_category (category_of "DatabaseSchemaTool.ts")
    (description_field squote squote (txt "d") ++
     category_field (category_of "DatabaseSchemaTool.ts") ++ []) =
  Some (description_field squote squote (txt "d") ++
        category_field (category_of "DatabaseSchemaTool.ts") ++
        category_field (category_of "DatabaseSchemaTool.ts") ++ []).
Proof.
  apply (proj2 (proj2 (add_category_every_description
                         "DatabaseSchemaTool.ts" [])));
    [reflexivity | reflexivity | discriminate | reflexivity].
Defined.

(** C2, as stated, fails on a text with two description fields: the code
    does not stop after the first. *)
Lemma add_category_not_first_only :
  add_category (category_of "DatabaseSchemaTool.ts") two_descriptions <>
  Some (add_category_first (category_of "DatabaseSchemaTool.ts")
          two_descriptions).
Proof.
  intros H. apply (f_equal (fmap length)) in H. vm_compute in H.
  discriminate H.
Qed.

(** C3.  Over any list of distinct identifiers and any file system the
    run completes.  It prints one line for each identifier that has a file,
    in list order, and then the closing line.  An identifier without a file
    is passed over: no line for it, no file created.  An identifier with a
    file is reported and its file holds the rewritten text. *)
Theorem run_skips_absent (ts : list string) (fs : gmap string text) :
  NoDup ts ->
  exists w,
    run ts fs = Some w /\
    stdout w =
      map report (List.filter (present fs) ts) ++ ["All tools fixed!"] /\
    (forall t, In t ts -> fs !! filepath t = None ->
               ~ In (report t) (stdout w) /\ files w !! filepath t = None) /\
    (forall t content, In t ts -> fs !! filepath t = Some content ->
               In (report t) (stdout w) /\
               files w !! filepath t = fix_content t content).
Proof.
  intros Hnd. destruct (run_spec ts fs) as (w & Hrun & Hout & _ & Hin).
  exists w. split; [done|]. split; [done|]. split.
  - intros t Ht Habs. split.
    + rewrite Hout. intros [Hrep | [Hsum|[]]]%in_app_or.
      * apply in_map_iff in Hrep as (t' & Heq & Hf).
        apply report_inj in Heq as ->. apply filter_In in Hf as [_ Hp].
        unfold present in Hp. apply bool_decide_eq_true in Hp as [c Hc].
        congruence.
      * by apply (report_not_summary t).
    + by rewrite (Hin Hnd t Ht), Habs.
  - intros t content Ht Hc. split.
    + rewrite Hout. apply in_or_app. left. apply in_map, filter_In.
      split; [done|]. unfold present. apply bool_decide_eq_true. eauto.
    + by rewrite (Hin Hnd t Ht), Hc.
Qed.

Lemma run_skips_absent_witness :
  exists w,
    run tools {[ filepath "DatabaseSchemaTool.ts" := legacy_module ]} = Some w /\
    stdout w = ["Fixed DatabaseSchemaTool.ts"; "All tools fixed!"].
Proof.
  destruct (run_skips_absent tools
              {[ filepath "DatabaseSchemaTool.ts" := legacy_module ]}
              tools_distinct) as (w & Hrun & Hout & _).
  exists w. split; [exact Hrun|]. rewrite Hout. vm_compute. reflexivity.
Defined.




(** C5, evaluated.  On the worked example the four rewrites give the
    three-symbol import, the typed metadata declaration and the widened
    signature; after the description field comes a line in which the label
    stands between two backslash-quote pairs, so the category field of the
    specification, with the label between plain quotes, is not in the
    output. *)
Theorem legacy_module_fixed :
  exists out,
    fix_content "DatabaseSchemaTool.ts" legacy_module = Some out /\
    occurs import_repl out = true /\
    occurs metadata_repl out = true /\
    occurs execute_repl out = true /\
    occurs (txt "description: 'd'," ++ [newline] ++
            txt "        category: \'Database\',") out = true /\
    occurs (txt "category: 'Database',") out = false.
Proof. eexists. repeat split; vm_compute; reflexivity. Qed.

(** C6.  The import rewrite fires only where the exact two-symbol import
    occurs: a text without it is returned as it is.  The augmented
    three-symbol import does not match the two-symbol pattern, so a text
    that holds it between two parts free of the two-symbol import is
    returned as it is, and applying the rewrite to its own output changes
    nothing, for every text. *)
Theorem fix_imports_idempotent :
  (forall s, occurs (txt import_pat) s = false -> fix_imports s = Some s) /\
  Re.search import_re import_repl = false /\
  (forall a b,
     occurs (txt import_pat) a = false ->
     occurs (txt import_pat) b = false ->
     fix_imports (a ++ import_repl ++ b) = Some (a ++ import_repl ++ b)) /\
  (forall s, exists s', fix_imports s = Some s' /\ fix_imports s' = Some s').
Proof.
  assert (forall s, occurs (txt import_pat) s = false ->
                    fix_imports s = Some s) as Habsent.
  { intros s H. rewrite fix_imports_scan. f_equal.
    by apply replace_all_absent. }
  split; [done|split; [|split]].
  - vm_compute. reflexivity.
  - intros a b Ha Hb. apply Habsent.
    by apply occurs_around; [apply import_apart| |].
  - intros s. eexists. split; [apply fix_imports_scan|].
    rewrite fix_imports_scan. f_equal. apply replace_all_idem, import_apart.
Qed.

Lemma fix_imports_idempotent_witness :
  fix_imports (import_repl ++ txt " 'x';") = Some (import_repl ++ txt " 'x';").
Proof.
  apply (proj1 (proj2 (proj2 fix_imports_idempotent)) []);
    vm_compute; reflexivity.
Defined.

(** C7.  The signature rewrite matches the exact one-parameter signature
    only: a text without it is returned as it is; so is a text that holds
    the widened signature between two parts free of the original one; and
    applying the rewrite to its own output changes nothing, for every
    text. *)
Theorem fix_execute_idempotent :
  (forall s, occurs (txt execute_pat) s = false -> fix_execute s = Some s) /\
  (forall a b,
     occurs (txt execute_pat) a = false ->
     occurs (txt execute_pat) b = false ->
     fix_execute (a ++ execute_repl ++ b) = Some (a ++ execute_repl ++ b)) /\
  (forall s, exists s', fix_execute s = Some s' /\ fix_execute s' = Some s').
Proof.
  assert (forall s, occurs (txt execute_pat) s = false ->
                    fix_execute s = Some s) as Habsent.
  { intros s H. rewrite fix_execute_scan. f_equal.
    by apply replace_all_absent. }
  split; [done|split].
  - intros a b Ha Hb. apply Habsent.
    by apply occurs_around; [apply execute_apart| |].
  - intros s. eexists. split; [apply fix_execute_scan|].
    rewrite fix_execute_scan. f_equal. apply replace_all_idem, execute_apart.
Qed.

Lemma fix_execute_idempotent_witness :
  fix_execute (txt "class C { " ++ execute_repl ++ txt " {} }") =
  Some (txt "class C { " ++ execute_repl ++ txt " {} }").
Proof.
  apply (proj1 (proj2 fix_execute_idempotent)); vm_compute; reflexivity.
Defined.

(** C8.  Each of the four rewrites returns its input unchanged when its
    pattern is found nowhere in the input. *)
Theorem rules_noop_without_match (tool : string) (s : text) :
  (Re.search import_re s = false -> fix_imports s = Some s) /\
  (Re.search metadata_re s = false -> fix_metadata s = Some s) /\
  (Re.search description_re s = false ->
   add_category (category_of tool) s = Some s) /\
  (Re.search execute_re s = false -> fix_execute s = Some s).
Proof.
  split; [|split; [|split]]; intros H.
  - rewrite fix_imports_scan. f_equal. by apply scan_no_match.
  - rewrite fix_metadata_scan. f_equal. by apply scan_no_match.
  - by apply add_category_no_match.
  - rewrite fix_execute_scan. f_equal. by apply scan_no_match.
Qed.

Lemma rules_noop_without_match_witness :
  let s := txt "export class C { run(): void {} }" in
  fix_imports s = Some s /\ fix_metadata s = Some s /\
  add_category (category_of "DatabaseSchemaTool.ts") s = Some s /\
  fix_execute s = Some s.
Proof.
  intros s.
  destruct (rules_noop_without_match "DatabaseSchemaTool.ts" s)
    as (H1 & H2 & H3 & H4).
  split; [|split; [|split]];
    [apply H1 | apply H2 | apply H3 | apply H4]; vm_compute; reflexivity.
Defined.

(** C9.  A text whose only description key is followed by an empty quoted
    value and a comma is returned unchanged by the category rewrite: the
    pattern wants at least one character between the quotes. *)
Theorem empty_description_untouched (tool : string) (pre post : text) :
  offsets (txt "description: ") (pre ++ txt "description: ''," ++ post) 0 =
    [length pre] ->
  add_category (category_of tool) (pre ++ txt "description: ''," ++ post) =
  Some (pre ++ txt "description: ''," ++ post).
Proof.
  intros Hoff. apply add_category_no_match. apply search_false. intros i.
  destruct (starts_with (txt "description: ")
              (drop i (pre ++ txt "description: ''," ++ post))) eqn:E;
    [|by apply description_match_key].
  apply (offsets_complete (txt "description: ") _ ltac:(done) i 0) in E.
  rewrite Hoff in E. destruct E as [E|[]]. simpl in E. subst i.
  rewrite drop_app_length. reflexivity.
Qed.

Lemma empty_description_untouched_witness :
  add_category (category_of "DatabaseSchemaTool.ts")
    (txt "{ name: 'n', " ++ txt "description: ''," ++ txt " }") =
  Some (txt "{ name: 'n', " ++ txt "description: ''," ++ txt " }").
Proof.
  apply (empty_description_untouched "DatabaseSchemaTool.ts").
  vm_compute. reflexivity.
Defined.

(** C10.  The text written back for an identifier of the list is the
    rewrite of the text read for it under that identifier, whatever else
    the file system holds: two runs that find the same text for an
    identifier write the same text for it. *)
Theorem main_writes_function_of_input (tool : string) (content : text)
    (fs1 fs2 : gmap string text) :
  In tool tools ->
  fs1 !! filepath tool = Some content ->
  fs2 !! filepath tool = Some content ->
  exists w1 w2,
    main fs1 = Some w1 /\ main fs2 = Some w2 /\
    files w1 !! filepath tool = fix_content tool content /\
    files w2 !! filepath tool = fix_content tool content.
Proof.
  intros Ht H1 H2. unfold main.
  destruct (run_spec tools fs1) as (w1 & Hrun1 & _ & _ & Hin1).
  destruct (run_spec tools fs2) as (w2 & Hrun2 & _ & _ & Hin2).
  exists w1, w2. split; [done|]. split; [done|].
  rewrite (Hin1 tools_distinct tool Ht), (Hin2 tools_distinct tool Ht).
  by rewrite H1, H2.
Qed.

Lemma main_writes_function_of_input_witness :
  exists w1 w2,
    main {[ filepath "DatabaseSchemaTool.ts" := legacy_module ]} = Some w1 /\
    main (<[ filepath "APIDocumentationTool.ts" := two_descriptions ]>
            {[ filepath "DatabaseSchemaTool.ts" := legacy_module ]}) = Some w2 /\
    files w1 !! filepath "DatabaseSchemaTool.ts" =
    files w2 !! filepath "DatabaseSchemaTool.ts".
Proof.
  destruct (main_writes_function_of_input "DatabaseSchemaTool.ts"
              legacy_module
              {[ filepath "DatabaseSchemaTool.ts" := legacy_module ]}
              (<[ filepath "APIDocumentationTool.ts" := two_descriptions ]>
                 {[ filepath "DatabaseSchemaTool.ts" := legacy_module ]}))
    as (w1 & w2 & H1 & H2 & E1 & E2);
    [vm_compute; tauto | vm_compute; reflexivity | vm_compute; reflexivity |].
  exists w1, w2. split; [exact H1|]. split; [exact H2|].
  rewrite E1, E2. reflexivity.
Defined.

(** * Further properties of the script *)

(** ** Replacement templates *)

Lemma parse_template_plain_app (n : nat) (t1 t2 : text) :
  plain t1 = true ->
  Re.parse_template n (t1 ++ t2) =
  (fun l => map Re.TChr t1 ++ l) <$> Re.parse_template n t2.
Proof.
  intros H. induction t1 as [|c t1 IH]; cbn [app map].
  - by destruct (Re.parse_template n t2).
  - cbn [plain forallb] in H. apply andb_true_iff in H as [Hc H].
    cbn [Re.parse_template]. rewrite Hc, (IH H).
    by destruct (Re.parse_template n t2).
Qed.

Lemma parse_template_plain (n : nat) (t : text) :
  plain t = true -> Re.parse_template n t = Some (map Re.TChr t).
Proof.
  intros H. rewrite <- (app_nil_r t) at 1.
  rewrite parse_template_plain_app by done. cbn. by rewrite app_nil_r.
Qed.

Lemma description_template_plain (category : string) :
  plain (txt category) = true ->
  Re.parse_template 1 (description_repl category) =
  Some (Re.TGrp 1 :: map Re.TChr (category_line category)).
Proof.
  intros H. unfold description_repl, category_line.
  change (txt "\1\n        category: \'")
    with ([backslash; "1"%char; backslash; "n"%char] ++
          txt "        category: " ++ [backslash; squote]).
  rewrite <- !app_assoc.
  assert (forall t, Re.parse_template 1 ([backslash; squote] ++ t) =
                    (fun l => Re.TChr backslash :: Re.TChr squote :: l)
                      <$> Re.parse_template 1 t) as Hq by done.
  assert (forall t, Re.parse_template 1
                      ([backslash; "1"%char; backslash; "n"%char] ++
                       txt "        category: " ++ t) =
                    (fun l => Re.TGrp 1 :: Re.TChr newline ::
                              map Re.TChr (txt "        category: ") ++ l)
                      <$> Re.parse_template 1 t) as Hhead.
  { intros t. cbn. by destruct (Re.parse_template 1 t). }
  rewrite Hhead, Hq, parse_template_plain_app by done.
  change (txt "\',") with ([backslash; squote] ++ [","%char]).
  rewrite Hq. cbn [Re.parse_template fmap option_fmap option_map negb].
  change (Ascii.eqb ","%char backslash) with false.
  cbn [Re.parse_template fmap option_fmap option_map negb].
  do 2 f_equal. cbn [map]. f_equal.
  change (txt "        category: \'")
    with (txt "        category: " ++ [backslash; squote]).
  rewrite <- !app_assoc, !map_app. reflexivity.
Qed.

Lemma letter_not_digit (c : ascii) :
  Re.ascii_letter c = true -> Re.digit_value c = None.
Proof.
  destruct c as [[] [] [] [] [] [] [] []]; vm_compute; congruence.
Qed.

Lemma description_template_head (t : text) :
  Re.parse_template 1 (txt "\1\n        category: \'" ++ t) =
  (fun l => Re.TGrp 1 ::
            map Re.TChr (newline :: txt "        category: \'") ++ l)
    <$> Re.parse_template 1 t.
Proof. cbn. by destruct (Re.parse_template 1 t). Qed.

(** ** The category rewrite under any label without backslashes *)

Lemma description_shape_chunk (chunk : text) :
  forall (s rest : text) (g : Re.captures),
    Re.match_here description_re s = Some (rest, g) ->
    exists m, s = m ++ rest /\ m <> [] /\
              Re.expand (Re.TGrp 1 :: map Re.TChr chunk) g =
              (if true then m else []) ++ chunk.
Proof.
  intros s rest g (m & Hs & Hm & Hg)%match_here_group.
  exists m. split; [done|]. split; [done|]. by apply expand_group_chars.
Qed.

Lemma add_category_plain (category : string) (s : text) :
  plain (txt category) = true ->
  add_category category s =
  Some (Re.scan description_re
          (Re.TGrp 1 :: map Re.TChr (category_line category)) 0 s).
Proof.
  intros H. unfold add_category, Re.sub.
  change (Re.groups description_re) with 1.
  by rewrite (description_template_plain _ H).
Qed.

(** Where a match begins, the key occurs and a quote stands before a
    comma. *)
Lemma description_match_occurs (s : text) (i : nat) (rest : text)
    (g : Re.captures) :
  Re.match_here description_re (drop i s) = Some (rest, g) ->
  occurs (txt "description: ") s = true /\
  (occurs [squote; ","%char] s = true \/ occurs [dquote; ","%char] s = true).
Proof.
  intros (q1 & q2 & body & Heq & H1 & H2 & Hne & Hb)%description_match_inv.
  assert (s = take i s ++ description_field q1 q2 body ++ rest) as Hs
    by by rewrite <- Heq, take_drop.
  unfold description_field in Hs. split.
  - apply occurs_true. eexists (take i s), _. rewrite Hs at 1.
    by rewrite <- !app_assoc.
  - assert (q2 = squote \/ q2 = dquote) as [-> | ->].
    { unfold is_quote, Re.mem in H2. simpl in H2.
      apply orb_true_iff in H2 as [H2|H2];
        [|apply orb_true_iff in H2 as [H2|H2]; [|done]];
        apply Ascii.eqb_eq in H2; auto. }
    + left. apply occurs_true.
      exists (take i s ++ txt "description: " ++ q1 :: body), rest.
      rewrite Hs at 1. rewrite <- !app_assoc. cbn [app].
      by rewrite <- !app_assoc.
    + right. apply occurs_true.
      exists (take i s ++ txt "description: " ++ q1 :: body), rest.
      rewrite Hs at 1. rewrite <- !app_assoc. cbn [app].
      by rewrite <- !app_assoc.
Qed.

(** X1.  The description pattern matches at the head of a text exactly
    when the text begins with a description field: the key, a single or a
    double quote, one or more characters that are not quotes, a single or a
    double quote (which need not be the opening one), and a comma.  The
    match is that field and group 1 holds it. *)
Theorem description_match_exactly (s rest : text) (g : Re.captures) :
  Re.match_here description_re s = Some (rest, g) <->
  exists q1 q2 body,
    s = description_field q1 q2 body ++ rest /\
    is_quote q1 = true /\ is_quote q2 = true /\ body <> [] /\
    forallb (fun c => negb (is_quote c)) body = true /\
    g = {[ 1 := description_field q1 q2 body ]}.
Proof.
  split.
  - intros H.
    destruct (description_match_inv _ _ _ H)
      as (q1 & q2 & body & -> & H1 & H2 & Hne & Hb).
    exists q1, q2, body. repeat split; try done.
    rewrite (description_matches _ _ _ _ H1 H2 Hne Hb) in H. congruence.
  - intros (q1 & q2 & body & -> & H1 & H2 & Hne & Hb & ->).
    by apply description_matches.
Qed.

Lemma description_match_exactly_witness :
  Re.match_here description_re
    (description_field squote dquote (txt "d") ++ txt " }") =
  Some (txt " }", {[ 1 := description_field squote dquote (txt "d") ]}).
Proof.
  apply (proj2 (description_match_exactly _ _ _)).
  exists squote, dquote, (txt "d").
  repeat split; try reflexivity. discriminate.
Defined.

(** X2.  Under a label without backslashes the category rewrite succeeds
    on every text, and on a text that begins with a description field it
    writes the field, then a newline, eight spaces and the category key
    with the label between two backslash-quote pairs and a comma, then the
    rewrite of the rest. *)
Theorem add_category_line (category : string) (q1 q2 : ascii)
    (body rest : text) :
  plain (txt category) = true ->
  is_quote q1 = true -> is_quote q2 = true -> body <> [] ->
  forallb (fun c => negb (is_quote c)) body = true ->
  exists out,
    add_category category rest = Some out /\
    add_category category (description_field q1 q2 body ++ rest) =
    Some (description_field q1 q2 body ++ category_line category ++ out).
Proof.
  intros Hp H1 H2 Hne Hb. eexists. split; [by apply add_category_plain|].
  rewrite add_category_plain by done. f_equal.
  rewrite (scan_match _ _ _ _ _ (description_matches _ _ _ _ H1 H2 Hne Hb)).
  rewrite (expand_group_chars 1 _ (description_field q1 q2 body))
    by apply lookup_singleton_eq.
  by rewrite <- app_assoc.
Qed.

Lemma add_category_line_witness :
  add_category "Testing" (description_field dquote dquote (txt "d") ++ []) =
  Some (description_field dquote dquote (txt "d") ++
        category_line "Testing" ++ []).
Proof.
  destruct (add_category_line "Testing" dquote dquote (txt "d") [])
    as (out & Hout & H);
    [reflexivity | reflexivity | reflexivity | discriminate | reflexivity |].
  vm_compute in Hout. injection Hout as <-. exact H.
Defined.

(** X3.  Under a label without backslashes the category rewrite returns
    the text unchanged when the text lacks the key followed by one space,
    and also when no quote in it stands directly before a comma (as for a
    description that closes its object without a trailing comma). *)
Theorem add_category_needs_key_and_comma (category : string) (s : text) :
  plain (txt category) = true ->
  occurs (txt "description: ") s = false \/
  (occurs [squote; ","%char] s = false /\
   occurs [dquote; ","%char] s = false) ->
  add_category category s = Some s.
Proof.
  intros Hp H. rewrite add_category_plain by done. f_equal.
  apply scan_no_match, search_false. intros i.
  destruct (Re.match_here description_re (drop i s)) as [[rest g]|] eqn:E;
    [|done].
  destruct (description_match_occurs _ _ _ _ E) as [Hk Hq].
  destruct H as [H | [Hs Hd]]; [congruence|].
  destruct Hq; congruence.
Qed.

Lemma add_category_needs_key_and_comma_witness :
  add_category "Testing" (txt "{ description: 'last field' }") =
  Some (txt "{ description: 'last field' }").
Proof.
  apply add_category_needs_key_and_comma;
    [reflexivity | right; split; reflexivity].
Defined.

(** X4.  Under a label without backslashes the category rewrite only
    inserts: every character of the input is in the output, in the same
    order. *)
Theorem add_category_only_inserts (category : string) (s : text) :
  plain (txt category) = true ->
  exists out, add_category category s = Some out /\ s `sublist_of` out.
Proof.
  intros Hp. eexists. split; [by apply add_category_plain|].
  apply (scan_sublist _ _ (category_line category)).
  apply description_shape_chunk.
Qed.

Lemma add_category_only_inserts_witness :
  exists out,
    add_category "Testing" two_descriptions = Some out /\
    two_descriptions `sublist_of` out.
Proof. apply add_category_only_inserts. reflexivity. Defined.

(** X5.  The label is pasted into the replacement template as it is.
    When the first backslash of a label stands before an ASCII letter that
    is not one of the template escapes (a, b, f, n, r, t, v) and is not g
    (after which [re] reads a group name, so that the outcome depends on
    what follows), the category rewrite fails on every text, whether the
    pattern is found in it or not. *)
Theorem add_category_bad_label (category : string) (pre post : text)
    (l : ascii) (s : text) :
  txt category = pre ++ backslash :: l :: post ->
  plain pre = true ->
  Re.ascii_letter l = true -> Re.escape l = None -> l <> "g"%char ->
  add_category category s = None.
Proof.
  intros Hc Hpre Hl He _. unfold add_category, Re.sub.
  change (Re.groups description_re) with 1.
  unfold description_repl. rewrite Hc, <- !app_assoc.
  rewrite description_template_head, parse_template_plain_app by done.
  cbn [app Re.parse_template]. unfold backslash at 1.
  rewrite Ascii.eqb_refl. cbn [negb].
  by rewrite (letter_not_digit _ Hl), He, Hl.
Qed.

Lemma add_category_bad_label_witness :
  add_category "R\D" (txt "no description here") = None.
Proof.
  apply (add_category_bad_label "R\D" (txt "R") [] "D"%char);
    [reflexivity | reflexivity | reflexivity | reflexivity | discriminate].
Defined.

(** ** The literal rewrites *)

Lemma compat_comm (a b : text) : compat a b = compat b a.
Proof. unfold compat. apply orb_comm. Qed.

Lemma unbordered_spec (p : text) (j : nat) :
  unbordered p = true -> 0 < j < length p -> compat (drop j p) p = false.
Proof.
  unfold unbordered. rewrite forallb_forall. intros H Hj.
  apply negb_true_iff, H, in_seq. lia.
Qed.

Lemma replace_all_at (pat : string) (repl x : text) :
  txt pat <> [] ->
  replace_all pat repl (txt pat ++ x) = repl ++ replace_all pat repl x.
Proof.
  intros Hne. unfold replace_all.
  rewrite (scan_match _ _ _ x ∅), expand_chars; [done|].
  by rewrite match_here_lit, starts_with_app, drop_app_length.
Qed.

Lemma replace_all_miss (pat : string) (repl : text) (c : ascii) (s : text) :
  txt pat <> [] -> starts_with (txt pat) (c :: s) = false ->
  replace_all pat repl (c :: s) = c :: replace_all pat repl s.
Proof.
  intros Hne H. apply scan_miss. by rewrite match_here_lit, H.
Qed.

(** The rewrite copies a stretch in which its pattern cannot begin,
    whatever follows the stretch. *)
Lemma replace_all_pass (pat : string) (repl x y : text) :
  txt pat <> [] ->
  (forall i, i < length x -> starts_with (txt pat) (drop i (x ++ y)) = false) ->
  replace_all pat repl (x ++ y) = x ++ replace_all pat repl y.
Proof.
  intros Hne H. apply scan_pass. intros i Hi.
  by rewrite match_here_lit, H.
Qed.

Lemma replace_all_head (pat : string) (repl q a s : text) :
  txt pat <> [] -> apart q repl = true ->
  starts_with q (a ++ replace_all pat repl s) = true ->
  starts_with q (a ++ s) = true.
Proof.
  intros Hne Hap.
  exact (scan_head _ _ false repl (lit_shape pat repl Hne) q Hap s a).
Qed.

(** A text that holds the pattern once, between two parts free of it. *)
Lemma replace_all_once (pat : string) (repl a b : text) :
  txt pat <> [] -> unbordered (txt pat) = true ->
  occurs (txt pat) a = false -> occurs (txt pat) b = false ->
  replace_all pat repl (a ++ txt pat ++ b) = a ++ repl ++ b.
Proof.
  intros Hne Hub Ha Hb. rewrite replace_all_pass; [|done|].
  - by rewrite replace_all_at, replace_all_absent.
  - intros i Hi.
    destruct (starts_with (txt pat) (drop i (a ++ txt pat ++ b))) eqn:E;
      [exfalso|done].
    rewrite drop_app_le in E by lia.
    apply starts_with_split in E as [E | (Hlen & _ & E)].
    + rewrite occurs_false in Ha. by rewrite Ha in E.
    + apply compat_split in E. rewrite unbordered_spec in E; [done|done|].
      rewrite length_drop in *. lia.
Qed.

Lemma replace_all_commute (pat1 pat2 : string) (repl1 repl2 : text) :
  apart (txt pat1) (txt pat2) = true ->
  apart (txt pat1) repl2 = true -> apart (txt pat2) repl1 = true ->
  forall s,
    replace_all pat1 repl1 (replace_all pat2 repl2 s) =
    replace_all pat2 repl2 (replace_all pat1 repl1 s).
Proof.
  intros H12 H1 H2.
  destruct (apart_nonempty _ _ H12) as [Hne1 Hne2].
  assert (forall x i, i < length (txt pat1) ->
            starts_with (txt pat2) (drop i (txt pat1 ++ x)) = false) as P12.
  { intros x i Hi. rewrite drop_app_le by lia.
    destruct (starts_with _ _) eqn:E; [|done]. apply compat_split in E.
    by rewrite compat_comm, apart_left in E. }
  assert (forall x i, i < length (txt pat2) ->
            starts_with (txt pat1) (drop i (txt pat2 ++ x)) = false) as P21.
  { intros x i Hi. rewrite drop_app_le by lia.
    destruct (starts_with _ _) eqn:E; [|done]. apply compat_split in E.
    by rewrite compat_comm, apart_right in E. }
  assert (forall x i, i < length repl1 ->
            starts_with (txt pat2) (drop i (repl1 ++ x)) = false) as R1.
  { intros x i Hi. rewrite drop_app_le by lia.
    destruct (starts_with _ _) eqn:E; [|done]. apply compat_split in E.
    by rewrite compat_comm, apart_right in E. }
  assert (forall x i, i < length repl2 ->
            starts_with (txt pat1) (drop i (repl2 ++ x)) = false) as R2.
  { intros x i Hi. rewrite drop_app_le by lia.
    destruct (starts_with _ _) eqn:E; [|done]. apply compat_split in E.
    by rewrite compat_comm, apart_right in E. }
  intros s. remember (length s) as n eqn:Hn. revert s Hn.
  induction n as [n IH] using lt_wf_ind. intros s Hn.
  destruct s as [|c s']; [done|].
  destruct (starts_with (txt pat1) (c :: s')) eqn:E1.
  - apply starts_with_drop in E1. rewrite E1.
    set (t := drop (length (txt pat1)) (c :: s')) in *.
    assert (length t < n) as Ht.
    { subst n. rewrite E1, length_app. destruct (txt pat1); [done|simpl; lia]. }
    rewrite (replace_all_pass pat2) by auto.
    rewrite !replace_all_at by done.
    rewrite (replace_all_pass pat2) by auto.
    f_equal. by apply (IH (length t)).
  - destruct (starts_with (txt pat2) (c :: s')) eqn:E2.
    + apply starts_with_drop in E2. rewrite E2.
      set (t := drop (length (txt pat2)) (c :: s')) in *.
      assert (length t < n) as Ht.
      { subst n. rewrite E2, length_app.
        destruct (txt pat2); [done|simpl; lia]. }
      rewrite (replace_all_pass pat1 repl1 (txt pat2)) by auto.
      rewrite !replace_all_at by done.
      rewrite (replace_all_pass pat1) by auto.
      f_equal. by apply (IH (length t)).
    + rewrite (replace_all_miss pat1), (replace_all_miss pat2) by done.
      rewrite (replace_all_miss pat1), (replace_all_miss pat2).
      * f_equal. apply (IH (length s')); [simpl in Hn; lia | done].
      * done.
      * destruct (starts_with (txt pat2) (c :: replace_all pat1 repl1 s'))
          eqn:E; [|done].
        apply (replace_all_head pat1 repl1 _ [c]) in E; [|done|done].
        simpl in E. congruence.
      * done.
      * destruct (starts_with (txt pat1) (c :: replace_all pat2 repl2 s'))
          eqn:E; [|done].
        apply (replace_all_head pat2 repl2 _ [c]) in E; [|done|done].
        simpl in E. congruence.
Qed.

Lemma patterns_unbordered :
  unbordered (txt import_pat) = true /\
  unbordered (txt metadata_pat) = true /\
  unbordered (txt execute_pat) = true.
Proof. repeat split; vm_compute; reflexivity. Qed.

Lemma patterns_apart :
  apart (txt import_pat) (txt metadata_pat) = true /\
  apart (txt import_pat) (txt execute_pat) = true /\
  apart (txt metadata_pat) (txt execute_pat) = true.
Proof. repeat split; vm_compute; reflexivity. Qed.

Lemma patterns_apart_replacements :
  apart (txt import_pat) metadata_repl = true /\
  apart (txt import_pat) execute_repl = true /\
  apart (txt metadata_pat) import_repl = true /\
  apart (txt metadata_pat) execute_repl = true /\
  apart (txt execute_pat) import_repl = true /\
  apart (txt execute_pat) metadata_repl = true.
Proof. repeat split; vm_compute; reflexivity. Qed.

(** X6.  The metadata rewrite returns a text without the static
    declaration as it is; the typed declaration it writes does not match
    its pattern; and for every text its output holds no static declaration
    any more, so that applying it again changes nothing. *)
Theorem fix_metadata_idempotent :
  (forall s, occurs (txt metadata_pat) s = false -> fix_metadata s = Some s) /\
  Re.search metadata_re metadata_repl = false /\
  (forall s, exists s',
     fix_metadata s = Some s' /\
     occurs (txt metadata_pat) s' = false /\
     fix_metadata s' = Some s').
Proof.
  split; [|split].
  - intros s H. rewrite fix_metadata_scan. f_equal.
    by apply replace_all_absent.
  - vm_compute. reflexivity.
  - intros s. eexists. split; [apply fix_metadata_scan|]. split.
    + apply replace_all_removes, metadata_apart.
    + rewrite fix_metadata_scan. f_equal.
      apply replace_all_idem, metadata_apart.
Qed.

Lemma fix_metadata_idempotent_witness :
  fix_metadata (txt "class C { public metadata = 1 }") =
  Some (txt "class C { public metadata = 1 }").
Proof. apply (proj1 fix_metadata_idempotent). reflexivity. Defined.

(** X7.  In a text that holds the legacy form once, between two parts free
    of it, each of the three literal rewrites replaces that occurrence by
    its new form and keeps both parts character for character. *)
Theorem literal_rules_replace_in_place (a b : text) :
  (occurs (txt import_pat) a = false -> occurs (txt import_pat) b = false ->
   fix_imports (a ++ txt import_pat ++ b) = Some (a ++ import_repl ++ b)) /\
  (occurs (txt metadata_pat) a = false ->
   occurs (txt metadata_pat) b = false ->
   fix_metadata (a ++ txt metadata_pat ++ b) =
   Some (a ++ metadata_repl ++ b)) /\
  (occurs (txt execute_pat) a = false -> occurs (txt execute_pat) b = false ->
   fix_execute (a ++ txt execute_pat ++ b) = Some (a ++ execute_repl ++ b)).
Proof.
  destruct patterns_unbordered as (U1 & U2 & U4).
  split; [|split]; intros Ha Hb.
  - rewrite fix_imports_scan. f_equal. by apply replace_all_once.
  - rewrite fix_metadata_scan. f_equal. by apply replace_all_once.
  - rewrite fix_execute_scan. f_equal. by apply replace_all_once.
Qed.

Lemma literal_rules_replace_in_place_witness :
  fix_metadata (txt "class C { " ++ txt metadata_pat ++ txt " }; }") =
  Some (txt "class C { " ++ metadata_repl ++ txt " }; }").
Proof.
  apply (proj1 (proj2 (literal_rules_replace_in_place _ _))); reflexivity.
Defined.

(** X8.  The three literal rewrites commute: applied to any text in either
    order, any two of them give the same text. *)
Theorem literal_rules_commute (s : text) :
  (s1 ← fix_imports s; fix_metadata s1) =
  (s1 ← fix_metadata s; fix_imports s1) /\
  (s1 ← fix_imports s; fix_execute s1) =
  (s1 ← fix_execute s; fix_imports s1) /\
  (s1 ← fix_metadata s; fix_execute s1) =
  (s1 ← fix_execute s; fix_metadata s1).
Proof.
  destruct patterns_apart as (A12 & A14 & A24).
  destruct patterns_apart_replacements as (B12 & B14 & B21 & B24 & B41 & B42).
  rewrite !fix_imports_scan, !fix_metadata_scan, !fix_execute_scan.
  cbn [mbind option_bind].
  rewrite !fix_imports_scan, !fix_metadata_scan, !fix_execute_scan.
  repeat split; f_equal; symmetry; by apply replace_all_commute.
Qed.

(** X9.  Whatever the identifier and the text, the output of the four
    rewrites holds no two-symbol import, no static metadata declaration and
    no one-parameter execute signature. *)
Theorem fix_content_removes_legacy (tool : string) (s : text) :
  exists out,
    fix_content tool s = Some out /\
    occurs (txt import_pat) out = false /\
    occurs (txt metadata_pat) out = false /\
    occurs (txt execute_pat) out = false.
Proof.
  destruct (fix_content_total tool s) as [out Hout].
  exists out. split; [done|]. by apply (fix_content_free tool s).
Qed.

(** X10.  A text in which none of the four patterns is found comes out of
    the four rewrites unchanged. *)
Theorem fix_content_unrelated (tool : string) (s : text) :
  Re.search import_re s = false -> Re.search metadata_re s = false ->
  Re.search description_re s = false -> Re.search execute_re s = false ->
  fix_content tool s = Some s.
Proof.
  intros H1 H2 H3 H4. rewrite fix_content_scan. f_equal.
  unfold replace_all, insert_category.
  rewrite (scan_no_match _ _ _ H1), (scan_no_match _ _ _ H2).
  by rewrite (scan_no_match _ _ _ H3), (scan_no_match _ _ _ H4).
Qed.

Lemma fix_content_unrelated_witness :
  fix_content "DatabaseSchemaTool.ts" (txt "export const version = 1;") =
  Some (txt "export const version = 1;").
Proof. apply fix_content_unrelated; reflexivity. Defined.

(** ** The loop and the file system *)

Lemma fix_content_again (tool : string) (s once : text) :
  fix_content tool s = Some once ->
  fix_content tool once = add_category (category_of tool) once.
Proof.
  intros Honce. destruct (fix_content_free _ _ _ Honce) as (F1 & F2 & F4).
  unfold fix_content.
  rewrite fix_imports_scan, replace_all_absent by done.
  cbn [mbind option_bind].
  rewrite fix_metadata_scan, replace_all_absent by done.
  cbn [mbind option_bind].
  rewrite add_category_scan by apply category_of_labels.
  cbn [mbind option_bind]. rewrite fix_execute_scan. f_equal.
  apply replace_all_absent; [done|].
  apply insert_category_preserves; [|done].
  apply category_field_apart, category_of_labels.
Qed.

Lemma fix_content_no_match (tool : string) (s : text) :
  Re.search import_re s = false -> Re.search metadata_re s = false ->
  Re.search description_re s = false -> Re.search execute_re s = false ->
  fix_content tool s = Some s.
Proof.
  intros H1 H2 H3 H4. rewrite fix_content_scan. f_equal.
  unfold replace_all, insert_category.
  rewrite (scan_no_match _ _ _ H1), (scan_no_match _ _ _ H2).
  by rewrite (scan_no_match _ _ _ H3), (scan_no_match _ _ _ H4).
Qed.

Lemma fix_tool_dom (tool : string) (w w' : world) :
  fix_tool tool w = Some w' -> dom (files w') = dom (files w).
Proof.
  unfold fix_tool. destruct (files w !! filepath tool) as [c|] eqn:E.
  - destruct (fix_content tool c) as [c'|]; [|done].
    cbn [mbind option_bind]. intros [= <-]. cbn [files].
    apply dom_insert_lookup_L. eauto.
  - by intros [= <-].
Qed.

Lemma fix_tools_dom (ts : list string) :
  forall w w', fix_tools ts w = Some w' -> dom (files w') = dom (files w).
Proof.
  induction ts as [|t ts IH]; intros w w'; cbn [fix_tools].
  - by intros [= <-].
  - destruct (fix_tool t w) as [w1|] eqn:E; [|done].
    cbn [mbind option_bind]. intros H.
    by rewrite (IH _ _ H), (fix_tool_dom _ _ _ E).
Qed.

Lemma run_dom (ts : list string) (fs : gmap string text) (w : world) :
  run ts fs = Some w -> dom (files w) = dom fs.
Proof.
  unfold run. destruct (fix_tools ts (World fs [])) as [w1|] eqn:E; [|done].
  cbn [mbind option_bind]. intros [= <-]. cbn [files].
  by rewrite (fix_tools_dom _ _ _ E).
Qed.

Lemma present_dom (fs1 fs2 : gmap string text) (t : string) :
  dom fs1 = dom fs2 -> present fs1 t = present fs2 t.
Proof.
  intros H. unfold present. apply bool_decide_ext.
  by rewrite <- !elem_of_dom, H.
Qed.

Lemma fix_tools_absent (ts : list string) (w : world) :
  (forall t, In t ts -> files w !! filepath t = None) ->
  fix_tools ts w = Some w.
Proof.
  induction ts as [|t ts IH]; intros H; [done|].
  cbn [fix_tools]. unfold fix_tool. rewrite (H t) by by left.
  cbn [mbind option_bind]. apply IH. intros t' Ht'. apply H. by right.
Qed.

(** X11.  The run neither creates nor removes a file, and a file whose
    path is not the path of an identifier of the list keeps its text: the
    rewriting of one identifier never reaches the file of another path. *)
Theorem run_touches_targets_only (ts : list string) (fs : gmap string text) :
  exists w,
    run ts fs = Some w /\
    dom (files w) = dom fs /\
    (forall p, (forall t, In t ts -> p <> filepath t) ->
               files w !! p = fs !! p).
Proof.
  destruct (run_spec ts fs) as (w & Hrun & _ & Hother & _).
  exists w. split; [done|]. split; [by apply (run_dom ts)|done].
Qed.

Lemma run_touches_targets_only_witness :
  exists w,
    main (<[ "src/agent/executors/index.ts" := legacy_module ]>
            {[ filepath "DatabaseSchemaTool.ts" := legacy_module ]}) = Some w /\
    files w !! "src/agent/executors/index.ts" = Some legacy_module.
Proof.
  destruct (run_touches_targets_only tools
              (<[ "src/agent/executors/index.ts" := legacy_module ]>
                 {[ filepath "DatabaseSchemaTool.ts" := legacy_module ]}))
    as (w & Hrun & _ & Hother).
  exists w. split; [exact Hrun|]. rewrite Hother; [reflexivity|].
  intros t [<-|[<-|[<-|[]]]]; discriminate.
Defined.

(** X12.  When no identifier of the list has a file, the run changes
    nothing in the file system and prints the closing line only; so it
    does for the empty list. *)
Theorem run_nothing_present (ts : list string) (fs : gmap string text) :
  (forall t, In t ts -> fs !! filepath t = None) ->
  run ts fs = Some (World fs ["All tools fixed!"]).
Proof.
  intros H. unfold run. by rewrite fix_tools_absent.
Qed.

Lemma run_nothing_present_witness :
  main {[ "README.md" := txt "static metadata = {" ]} =
  Some (World {[ "README.md" := txt "static metadata = {" ]}
              ["All tools fixed!"]).
Proof.
  apply run_nothing_present.
  intros t [<-|[<-|[<-|[]]]]; reflexivity.
Defined.

(** X13.  A file of the list in which none of the four patterns is found
    is written back with the text it had, and is reported as fixed all the
    same: the report does not depend on any rewrite having matched. *)
Theorem run_reports_unchanged (ts : list string) (fs : gmap string text)
    (t : string) (content : text) :
  NoDup ts -> In t ts -> fs !! filepath t = Some content ->
  Re.search import_re content = false ->
  Re.search metadata_re content = false ->
  Re.search description_re content = false ->
  Re.search execute_re content = false ->
  exists w,
    run ts fs = Some w /\
    files w !! filepath t = Some content /\
    In (report t) (stdout w).
Proof.
  intros Hnd Ht Hc H1 H2 H3 H4.
  destruct (run_spec ts fs) as (w & Hrun & Hout & _ & Hin).
  exists w. split; [done|]. split.
  - rewrite (Hin Hnd t Ht), Hc. cbn [mbind option_bind].
    by apply fix_content_no_match.
  - rewrite Hout. apply in_or_app. left. apply in_map, filter_In.
    split; [done|]. unfold present. apply bool_decide_eq_true. eauto.
Qed.

Lemma run_reports_unchanged_witness :
  exists w,
    main {[ filepath "DatabaseSchemaTool.ts" := txt "export {};" ]} = Some w /\
    files w !! filepath "DatabaseSchemaTool.ts" = Some (txt "export {};") /\
    In (report "DatabaseSchemaTool.ts") (stdout w).
Proof.
  apply (run_reports_unchanged tools); try reflexivity.
  - exact tools_distinct.
  - right. left. reflexivity.
Defined.

(** X14.  Running the script on the file system a first run left behind
    prints the same lines again, and the text it writes for an identifier
    is the text of the first run with the category rewrite applied once
    more: the other three rewrites find nothing left to do. *)
Theorem run_again (ts : list string) (fs : gmap string text) :
  NoDup ts ->
  exists w1 w2,
    run ts fs = Some w1 /\
    run ts (files w1) = Some w2 /\
    stdout w2 = stdout w1 /\
    (forall t, In t ts ->
       files w2 !! filepath t =
       files w1 !! filepath t ≫= add_category (category_of t)).
Proof.
  intros Hnd.
  destruct (run_spec ts fs) as (w1 & Hrun1 & Hout1 & _ & Hin1).
  destruct (run_spec ts (files w1)) as (w2 & Hrun2 & Hout2 & _ & Hin2).
  exists w1, w2. split; [done|]. split; [done|]. split.
  - rewrite Hout2, Hout1. do 2 f_equal. apply filter_ext. intros t.
    apply present_dom. by apply (run_dom ts).
  - intros t Ht. rewrite (Hin2 Hnd t Ht).
    specialize (Hin1 Hnd t Ht).
    destruct (files w1 !! filepath t) as [once|]; [|done].
    cbn [mbind option_bind].
    destruct (fs !! filepath t) as [c|]; [|done].
    cbn [mbind option_bind] in Hin1. symmetry in Hin1.
    by apply (fix_content_again t c).
Qed.

Lemma run_again_witness :
  exists w1 w2,
    main {[ filepath "DatabaseSchemaTool.ts" := legacy_module ]} = Some w1 /\
    main (files w1) = Some w2 /\
    stdout w2 = stdout w1.
Proof.
  destruct (run_again tools
              {[ filepath "DatabaseSchemaTool.ts" := legacy_module ]}
              tools_distinct) as (w1 & w2 & H1 & H2 & Hout & _).
  exists w1, w2. split; [exact H1|]. split; [exact H2|exact Hout].
Defined.

(** ** The category rewrite against a literal rewrite *)

Lemma first_quote_unique (u1 u2 x1 x2 : text) (q1 q2 : ascii) :
  forallb (fun c => negb (is_quote c)) u1 = true ->
  forallb (fun c => negb (is_quote c)) u2 = true ->
  is_quote q1 = true -> is_quote q2 = true ->
  u1 ++ q1 :: x1 = u2 ++ q2 :: x2 ->
  u1 = u2 /\ q1 = q2 /\ x1 = x2.
Proof.
  revert u2. induction u1 as [|c u1 IH]; intros u2 H1 H2 Hq1 Hq2 Heq.
  - destruct u2 as [|c2 u2]; simpl in *.
    + by injection Heq as -> ->.
    + injection Heq as -> _. apply andb_true_iff in H2 as [H2 _].
      by rewrite Hq1 in H2.
  - simpl in H1. apply andb_true_iff in H1 as [Hc H1].
    destruct u2 as [|c2 u2]; simpl in *.
    + injection Heq as -> _. by rewrite Hq2 in Hc.
    + apply andb_true_iff in H2 as [_ H2]. injection Heq as -> Heq.
      destruct (IH u2 H1 H2 Hq1 Hq2 Heq) as (-> & -> & ->). done.
Qed.

Lemma first_quote_split (t : text) :
  forallb (fun c => negb (is_quote c)) t = true \/
  exists u q x, t = u ++ q :: x /\ is_quote q = true /\
                forallb (fun c => negb (is_quote c)) u = true.
Proof.
  induction t as [|c t IH]; [by left|].
  destruct (is_quote c) eqn:Hc.
  - right. by exists [], c, t.
  - destruct IH as [IH | (u & q & x & -> & Hq & Hu)].
    + left. simpl. by rewrite Hc.
    + right. exists (c :: u), q, x. simpl. by rewrite Hc.
Qed.

Lemma quote_free_app (u v : text) :
  forallb (fun c => negb (is_quote c)) (u ++ v) = true <->
  forallb (fun c => negb (is_quote c)) u = true /\
  forallb (fun c => negb (is_quote c)) v = true.
Proof. rewrite forallb_app. apply andb_true_iff. Qed.

Section AgainstLiteral.
Variables (pat : string) (repl chunk : text).

Let key : text := txt "description: ".
Let r (s : text) : text := replace_all pat repl s.
Let r3 (s : text) : text :=
  Re.scan description_re (Re.TGrp 1 :: map Re.TChr chunk) 0 s.

Hypothesis pat_quote_free :
  forallb (fun c => negb (is_quote c)) (txt pat) = true.
Hypothesis repl_quote_free :
  forallb (fun c => negb (is_quote c)) repl = true.
Hypothesis pat_key : apart (txt pat) key = true.
Hypothesis key_repl : apart key repl = true.
Hypothesis pat_chunk : apart (txt pat) chunk = true.
Hypothesis pat_head : starts_with [","%char] (txt pat) = false.
Hypothesis repl_head : starts_with [","%char] repl = false.

Lemma pat_nonempty : txt pat <> [].
Proof. by destruct (apart_nonempty _ _ pat_key). Qed.

Lemma repl_nonempty : repl <> [].
Proof. by destruct (apart_nonempty _ _ key_repl). Qed.

Lemma no_pat_at_quote (q : ascii) (x : text) (j : nat) :
  is_quote q = true -> j < length (txt pat) ->
  starts_with (drop j (txt pat)) (q :: x) = false.
Proof.
  intros Hq Hj. destruct (drop j (txt pat)) as [|c p] eqn:E.
  - apply (f_equal length) in E. rewrite length_drop in E. simpl in E. lia.
  - simpl. destruct (Ascii.eqb c q) eqn:Hc; [|done].
    apply Ascii.eqb_eq in Hc as ->.
    assert (forallb (fun c => negb (is_quote c)) (drop j (txt pat)) = true)
      as Hd.
    { rewrite <- (take_drop j (txt pat)) in pat_quote_free.
      by apply quote_free_app in pat_quote_free as [_ ?]. }
    rewrite E in Hd. simpl in Hd. by rewrite Hq in Hd.
Qed.

(** The literal rewrite works on each side of a quote separately. *)
Lemma r_at_quote (u : text) (q : ascii) (x : text) :
  is_quote q = true -> r (u ++ q :: x) = r u ++ q :: r x.
Proof.
  intros Hq. pose proof pat_nonempty as Hne.
  remember (length u) as n eqn:Hn. revert u Hn.
  induction n as [n IH] using lt_wf_ind. intros u Hn.
  destruct u as [|c u'].
  - simpl app. unfold r. rewrite replace_all_miss; [done | done |].
    apply (no_pat_at_quote q x 0 Hq). destruct (txt pat); [done|simpl; lia].
  - destruct (starts_with (txt pat) ((c :: u') ++ q :: x)) eqn:E.
    + apply starts_with_split in E as [E | (Hlen & _ & E)].
      * apply starts_with_drop in E. rewrite E.
        set (t := drop (length (txt pat)) (c :: u')) in *.
        rewrite <- app_assoc. unfold r.
        rewrite !replace_all_at by done. rewrite <- app_assoc. f_equal.
        apply (IH (length t)); [|done].
        subst n. rewrite E, length_app.
        destruct (txt pat); [done | simpl; lia].
      * by rewrite no_pat_at_quote in E.
    + unfold r. cbn [app]. rewrite !replace_all_miss; try done.
      * cbn [app]. f_equal. apply (IH (length u')); [simpl in Hn; lia|done].
      * destruct (starts_with (txt pat) (c :: u')) eqn:E'; [|done].
        apply (starts_with_weaken _ _ (q :: x)) in E'. simpl in *. congruence.
Qed.

Lemma r_quote_free (u : text) :
  forallb (fun c => negb (is_quote c)) u = true ->
  forallb (fun c => negb (is_quote c)) (r u) = true.
Proof.
  pose proof pat_nonempty as Hne.
  remember (length u) as n eqn:Hn. revert u Hn.
  induction n as [n IH] using lt_wf_ind. intros u Hn Hu.
  destruct u as [|c u']; [done|].
  destruct (starts_with (txt pat) (c :: u')) eqn:E.
  - apply starts_with_drop in E. rewrite E in Hu |- *.
    set (t := drop (length (txt pat)) (c :: u')) in *.
    unfold r. rewrite replace_all_at by done.
    apply quote_free_app in Hu as [_ Hu]. apply quote_free_app.
    split; [done|]. apply (IH (length t)); [|done|done].
    subst n. rewrite E, length_app. destruct (txt pat); [done | simpl; lia].
  - unfold r. rewrite replace_all_miss by done.
    simpl in Hu |- *. apply andb_true_iff in Hu as [-> Hu]. simpl.
    apply (IH (length u')); [simpl in Hn; lia | done | done].
Qed.

Lemma r_nil (u : text) : r u = [] -> u = [].
Proof.
  pose proof pat_nonempty as Hne. pose proof repl_nonempty as Hre.
  destruct u as [|c u']; [done|]. unfold r.
  destruct (starts_with (txt pat) (c :: u')) eqn:E.
  - apply starts_with_drop in E. rewrite E, replace_all_at by done.
    by destruct repl.
  - by rewrite replace_all_miss.
Qed.

Lemma r_pass_key (y : text) : r (key ++ y) = key ++ r y.
Proof.
  apply replace_all_pass; [apply pat_nonempty|]. intros i Hi.
  rewrite drop_app_le by lia.
  destruct (starts_with (txt pat) _) eqn:E; [|done]. apply compat_split in E.
  by rewrite compat_comm, apart_right in E.
Qed.

Lemma r_pass_chunk (y : text) : r (chunk ++ y) = chunk ++ r y.
Proof.
  apply replace_all_pass; [apply pat_nonempty|]. intros i Hi.
  rewrite drop_app_le by lia.
  destruct (starts_with (txt pat) _) eqn:E; [|done]. apply compat_split in E.
  by rewrite compat_comm, apart_right in E.
Qed.

Lemma r_at_comma (x : text) : r (","%char :: x) = ","%char :: r x.
Proof.
  apply replace_all_miss; [apply pat_nonempty|].
  pose proof pat_head as H. destruct (txt pat) as [|c p]; [done|].
  cbn [starts_with] in *. rewrite andb_true_r in H.
  by rewrite Ascii.eqb_sym, H.
Qed.

Lemma field_app (q1 q2 : ascii) (b y : text) :
  description_field q1 q2 b ++ y = key ++ q1 :: b ++ q2 :: ","%char :: y.
Proof.
  unfold description_field, key. rewrite <- !app_assoc. cbn [app].
  by rewrite <- !app_assoc.
Qed.

(** The literal rewrite takes a description field to a description
    field. *)
Lemma r_field (q1 q2 : ascii) (body x : text) :
  is_quote q1 = true -> is_quote q2 = true ->
  r (description_field q1 q2 body ++ x) =
  description_field q1 q2 (r body) ++ r x.
Proof.
  intros H1 H2.
  assert (forall b y, description_field q1 q2 b ++ y =
                      key ++ [] ++ q1 :: b ++ q2 :: ","%char :: y) as Hf.
  { intros b y. unfold description_field, key.
    rewrite <- !app_assoc. cbn [app]. by rewrite <- !app_assoc. }
  rewrite !Hf, r_pass_key, (r_at_quote []), r_at_quote, r_at_comma by done.
  done.
Qed.

Lemma r3_match (q1 q2 : ascii) (body x : text) :
  is_quote q1 = true -> is_quote q2 = true -> body <> [] ->
  forallb (fun c => negb (is_quote c)) body = true ->
  r3 (description_field q1 q2 body ++ x) =
  description_field q1 q2 body ++ chunk ++ r3 x.
Proof.
  intros H1 H2 Hne Hb. unfold r3.
  rewrite (scan_match _ _ _ _ _ (description_matches _ _ _ _ H1 H2 Hne Hb)).
  rewrite (expand_group_chars 1 _ (description_field q1 q2 body))
    by apply lookup_singleton_eq.
  by rewrite <- app_assoc.
Qed.

Lemma r3_pass (x y : text) :
  (forall i, i < length x -> compat key (drop i x) = false) ->
  r3 (x ++ y) = x ++ r3 y.
Proof.
  intros H. apply scan_pass. intros i Hi. apply description_match_key.
  rewrite drop_app_le by lia.
  destruct (starts_with (txt "description: ") _) eqn:E; [|done]. apply compat_split in E.
  by rewrite H in E.
Qed.

(** A match in the rewritten text comes from a match in the text. *)
Lemma r_reflects_match (c : ascii) (s : text) :
  starts_with (txt pat) (c :: s) = false ->
  Re.match_here description_re (c :: r s) <> None ->
  Re.match_here description_re (c :: s) <> None.
Proof.
  intros Hmiss Hm. pose proof pat_nonempty as Hne.
  destruct (Re.match_here description_re (c :: r s)) as [[rest g]|] eqn:E;
    [clear Hm|done].
  apply description_match_inv in E
    as (q1 & q2 & body' & Heq & H1 & H2 & Hne' & Hb').
  assert (starts_with key (c :: s) = true) as Hkey.
  { apply (replace_all_head pat repl key [c] s Hne key_repl).
    cbn [app]. fold (r s). rewrite Heq, field_app. apply starts_with_app. }
  apply starts_with_drop in Hkey.
  set (y := drop (length key) (c :: s)) in *.
  assert (r y = q1 :: body' ++ q2 :: ","%char :: rest) as Hy.
  { apply (app_inv_head key). rewrite <- r_pass_key, <- Hkey.
    unfold r. rewrite replace_all_miss by done. fold (r s).
    by rewrite Heq, field_app. }
  destruct (first_quote_split y) as [Hfree | (u0 & qa & y1 & Hy0 & Hqa & Hu0)].
  { apply r_quote_free in Hfree. rewrite Hy in Hfree. simpl in Hfree.
    by rewrite H1 in Hfree. }
  rewrite Hy0, r_at_quote in Hy by done.
  apply (first_quote_unique (r u0) [] _ _ qa q1) in Hy
    as (Hu0' & -> & Hy1); [|by apply r_quote_free|done|done|done].
  apply r_nil in Hu0' as ->.
  destruct (first_quote_split y1) as [Hfree | (u & qb & x & Hy1' & Hqb & Hu)].
  { apply r_quote_free in Hfree. rewrite Hy1 in Hfree.
    apply quote_free_app in Hfree as [_ Hfree]. simpl in Hfree.
    by rewrite H2 in Hfree. }
  rewrite Hy1', r_at_quote in Hy1 by done.
  apply (first_quote_unique (r u) body' _ _ qb q2) in Hy1
    as (Hbody & -> & Hx); [|by apply r_quote_free|done|done|done].
  assert (u <> []) as Hune by (intros ->; by subst body').
  assert (exists x2, x = ","%char :: x2) as [x2 ->].
  { destruct x as [|c2 x2]; [done|].
    destruct (starts_with (txt pat) (c2 :: x2)) eqn:Ex.
    - apply starts_with_drop in Ex. rewrite Ex in Hx. unfold r in Hx.
      rewrite replace_all_at in Hx by done.
      pose proof repl_head as Hh. destruct repl as [|c0 R]; [done|].
      cbn [starts_with] in Hh. cbn [app] in Hx. injection Hx as -> _.
      by rewrite Ascii.eqb_refl in Hh.
    - unfold r in Hx. rewrite replace_all_miss in Hx by done.
      injection Hx as -> _. by exists x2. }
  rewrite Hkey, Hy0, Hy1'. cbn [app]. rewrite <- field_app.
  by rewrite (description_matches q1 q2 u x2).
Qed.

Lemma r3_commutes (s : text) : r3 (r s) = r (r3 s).
Proof.
  pose proof pat_nonempty as Hne.
  remember (length s) as n eqn:Hn. revert s Hn.
  induction n as [n IH] using lt_wf_ind. intros s Hn.
  destruct s as [|c s']; [done|].
  destruct (starts_with (txt pat) (c :: s')) eqn:E1.
  - apply starts_with_drop in E1. rewrite E1.
    set (t := drop (length (txt pat)) (c :: s')) in *.
    assert (length t < n) as Ht.
    { subst n. rewrite E1, length_app. destruct (txt pat); [done|simpl; lia]. }
    unfold r at 1. rewrite replace_all_at by done. fold (r t).
    rewrite !r3_pass.
    + unfold r at 2. rewrite replace_all_at by done. f_equal.
      by apply (IH (length t)).
    + intros i Hi. by rewrite compat_comm, apart_left.
    + intros i Hi. by rewrite compat_comm, apart_right.
  - destruct (Re.match_here description_re (c :: s')) as [[rest g]|] eqn:E3.
    + apply description_match_inv in E3
        as (q1 & q2 & body & Heq & H1 & H2 & Hb0 & Hb).
      rewrite Heq. rewrite r_field, !r3_match; try done.
      * rewrite r_field, r_pass_chunk by done. do 2 f_equal.
        apply (IH (length rest)); [|done].
        subst n. rewrite Heq, length_app. unfold description_field.
        rewrite length_app. simpl. lia.
      * intros Hnil. by apply r_nil in Hnil.
      * by apply r_quote_free.
    + unfold r at 1. rewrite replace_all_miss by done. fold (r s').
      unfold r3 at 2. rewrite (scan_miss _ _ _ _ E3). fold (r3 s').
      unfold r at 2. rewrite replace_all_miss; [|done|].
      * unfold r3 at 1. rewrite scan_miss.
        -- f_equal. apply (IH (length s')); [simpl in Hn; lia | done].
        -- destruct (Re.match_here description_re (c :: r s')) eqn:E; [|done].
           exfalso. apply (r_reflects_match c s' E1); [|done].
           by rewrite E.
      * destruct (starts_with (txt pat) (c :: r3 s')) eqn:E; [|done].
        apply (scan_head _ _ true chunk (description_shape_chunk chunk)
                 (txt pat) pat_chunk s' [c]) in E.
        simpl in E. congruence.
Qed.
End AgainstLiteral.

Lemma literal_rules_against_description :
  let ok (pat : string) (repl : text) :=
    forallb (fun c => negb (is_quote c)) (txt pat) &&
    forallb (fun c => negb (is_quote c)) repl &&
    apart (txt pat) (txt "description: ") &&
    apart (txt "description: ") repl &&
    negb (starts_with [","%char] (txt pat)) &&
    negb (starts_with [","%char] repl) in
  ok import_pat import_repl = true /\
  ok metadata_pat metadata_repl = true /\
  ok execute_pat execute_repl = true.
Proof. repeat split; vm_compute; reflexivity. Qed.

Lemma insert_category_commutes (pat : string) (repl : text)
    (category : string) (s : text) :
  forallb (fun c => negb (is_quote c)) (txt pat) &&
  forallb (fun c => negb (is_quote c)) repl &&
  apart (txt pat) (txt "description: ") &&
  apart (txt "description: ") repl &&
  negb (starts_with [","%char] (txt pat)) &&
  negb (starts_with [","%char] repl) = true ->
  apart (txt pat) (category_field category) = true ->
  insert_category category (replace_all pat repl s) =
  replace_all pat repl (insert_category category s).
Proof.
  rewrite !andb_true_iff, !negb_true_iff.
  intros [[[[[H1 H2] H3] H4] H5] H6] H7.
  by apply r3_commutes.
Qed.

Lemma commute_sym (f g : text -> option text) : commute f g -> commute g f.
Proof. intros H s. symmetry. apply H. Qed.

Lemma rules_commute (tool : string) :
  commute fix_imports fix_metadata /\
  commute fix_imports (add_category (category_of tool)) /\
  commute fix_imports fix_execute /\
  commute fix_metadata (add_category (category_of tool)) /\
  commute fix_metadata fix_execute /\
  commute (add_category (category_of tool)) fix_execute.
Proof.
  pose proof (category_of_labels tool) as Hl.
  destruct patterns_apart as (A12 & A14 & A24).
  destruct patterns_apart_replacements as (B12 & B14 & B21 & B24 & B41 & B42).
  destruct literal_rules_against_description as (D1 & D2 & D4).
  destruct (category_field_apart _ Hl) as (C1 & C2 & C4).
  unfold commute.
  repeat split; intros s;
    rewrite ?fix_imports_scan, ?fix_metadata_scan, ?fix_execute_scan,
      ?add_category_scan by done;
    cbn [mbind option_bind];
    rewrite ?fix_imports_scan, ?fix_metadata_scan, ?fix_execute_scan,
      ?add_category_scan by done;
    f_equal.
  - symmetry. by apply replace_all_commute.
  - by apply insert_category_commutes.
  - symmetry. by apply replace_all_commute.
  - by apply insert_category_commutes.
  - symmetry. by apply replace_all_commute.
  - symmetry. by apply insert_category_commutes.
Qed.

Lemma bind_assoc_option {A B C} (m : option A) (f : A -> option B)
    (g : B -> option C) :
  (y ← (x ← m; f x); g y) = (x ← m; y ← f x; g y).
Proof. by destruct m. Qed.

Lemma apply_in_order_perm (l l' : list (text -> option text)) :
  Permutation l l' ->
  (forall f g, In f l -> In g l -> commute f g) ->
  forall s, apply_in_order l s = apply_in_order l' s.
Proof.
  induction 1 as [|x l l' Hp IH|x y l|l l' l'' Hp IH Hp' IH']; intros Hc s.
  - done.
  - cbn [apply_in_order]. destruct (x s) as [s1|]; [|done].
    cbn [mbind option_bind]. apply IH.
    intros f g Hf Hg. apply Hc; by right.
  - cbn [apply_in_order]. rewrite <- !bind_assoc_option.
    rewrite (Hc y x); [done | by left | by right; left].
  - rewrite IH by done. apply IH'.
    intros f g Hf Hg.
    apply Hc; eapply Permutation_in; try eassumption; by symmetry.
Qed.

(** X15.  The category rewrite commutes with each of the three literal
    rewrites: on every text, under the label of any identifier, running it
    before or after one of them gives the same text. *)
Theorem add_category_commutes (tool : string) (s : text) :
  (s1 ← fix_imports s; add_category (category_of tool) s1) =
  (s1 ← add_category (category_of tool) s; fix_imports s1) /\
  (s1 ← fix_metadata s; add_category (category_of tool) s1) =
  (s1 ← add_category (category_of tool) s; fix_metadata s1) /\
  (s1 ← fix_execute s; add_category (category_of tool) s1) =
  (s1 ← add_category (category_of tool) s; fix_execute s1).
Proof.
  destruct (rules_commute tool) as (_ & H13 & _ & H23 & _ & H34).
  split; [apply H13 | split; [apply H23 | symmetry; apply H34]].
Qed.

(** X16.  The order of the four rewrites does not matter: run in any
    order, one after the other, they give the text the script gives. *)
Theorem fix_content_any_order (tool : string)
    (rules : list (text -> option text)) (s : text) :
  Permutation rules
    [fix_imports; fix_metadata; add_category (category_of tool);
     fix_execute] ->
  apply_in_order rules s = fix_content tool s.
Proof.
  intros Hp.
  destruct (rules_commute tool) as (H12 & H13 & H14 & H23 & H24 & H34).
  rewrite <- (apply_in_order_perm _ _ (Permutation_sym Hp)).
  - unfold fix_content. cbn [apply_in_order].
    destruct (fix_imports s) as [s1|]; [|done]. cbn [mbind option_bind].
    destruct (fix_metadata s1) as [s2|]; [|done]. cbn [mbind option_bind].
    destruct (add_category (category_of tool) s2) as [s3|]; [|done].
    cbn [mbind option_bind]. by destruct (fix_execute s3).
  - intros f g [<-|[<-|[<-|[<-|[]]]]] [<-|[<-|[<-|[<-|[]]]]];
      first [ done | by apply commute_sym | by intros ? ].
Qed.

Lemma fix_content_any_order_witness :
  apply_in_order
    [fix_execute; add_category (category_of "DatabaseSchemaTool.ts");
     fix_metadata; fix_imports] legacy_module =
  fix_content "DatabaseSchemaTool.ts" legacy_module.
Proof.
  apply fix_content_any_order.
  exact (Permutation_sym
           (Permutation_rev
              [fix_imports; fix_metadata;
               add_category (category_of "DatabaseSchemaTool.ts");
               fix_execute])).
Defined.

(** ** Edges of the category rewrite *)

Lemma search_true_at (r : Re.regex) (s : text) (i : nat) :
  Re.match_here r (drop i s) <> None -> Re.search r s = true.
Proof.
  intros H. destruct (Re.search r s) eqn:E; [done|].
  rewrite search_false in E. by rewrite E in H.
Qed.

(** X17.  The value of a description ends at the first quote after the
    opening one, and the comma must follow at once.  Under a label without
    backslashes, a text whose only description key is followed by a quote,
    by characters that are not quotes, by a quote and then by anything but
    a comma (as when the value holds an apostrophe) is returned unchanged
    by the category rewrite. *)
Theorem add_category_quote_in_value (category : string) (pre : text)
    (q1 q2 : ascii) (body x : text) :
  plain (txt category) = true ->
  is_quote q1 = true -> is_quote q2 = true ->
  forallb (fun c => negb (is_quote c)) body = true ->
  starts_with [","%char] x = false ->
  offsets (txt "description: ")
    (pre ++ txt "description: " ++ q1 :: body ++ q2 :: x) 0 = [length pre] ->
  add_category category
    (pre ++ txt "description: " ++ q1 :: body ++ q2 :: x) =
  Some (pre ++ txt "description: " ++ q1 :: body ++ q2 :: x).
Proof.
  intros Hp H1 H2 Hb Hx Hoff. rewrite add_category_plain by done. f_equal.
  apply scan_no_match, search_false. intros i.
  destruct (starts_with (txt "description: ")
              (drop i (pre ++ txt "description: " ++ q1 :: body ++ q2 :: x)))
    eqn:E; [|by apply description_match_key].
  apply (offsets_complete (txt "description: ") _ ltac:(done) i 0) in E.
  rewrite Hoff in E. destruct E as [E|[]]. simpl in E. subst i.
  rewrite drop_app_length.
  destruct (Re.match_here description_re
              (txt "description: " ++ q1 :: body ++ q2 :: x))
    as [[rest g]|] eqn:Em; [exfalso|done].
  apply description_match_inv in Em
    as (q1' & q2' & body' & Heq & H1' & H2' & Hne' & Hb').
  rewrite field_app in Heq. apply app_inv_head in Heq.
  injection Heq as -> Heq.
  by apply first_quote_unique in Heq as (_ & _ & ->).
Qed.

Lemma add_category_quote_in_value_witness :
  add_category "Testing"
    (txt "{ " ++ txt "description: " ++
     squote :: txt "it" ++ squote :: txt "s fine', }") =
  Some (txt "{ " ++ txt "description: " ++
        squote :: txt "it" ++ squote :: txt "s fine', }").
Proof.
  apply (add_category_quote_in_value "Testing" (txt "{ ")); reflexivity.
Defined.

(** X18.  Under a label without backslashes, on a text in which the
    description pattern is found the category rewrite gives a strictly
    longer text in which the pattern is found again: every further run
    inserts again, and no run is the last to change the text. *)
Theorem add_category_grows (category : string) (s : text) :
  plain (txt category) = true ->
  Re.search description_re s = true ->
  exists out,
    add_category category s = Some out /\
    length s < length out /\
    Re.search description_re out = true.
Proof.
  intros Hp Hs. eexists. split; [by apply add_category_plain|].
  destruct (find description_re s) as [[[a m] b]|] eqn:Hf;
    [|apply find_none in Hf; congruence].
  destruct (scan_find _ (Re.TGrp 1 :: map Re.TChr (category_line category))
              _ _ _ _ Hf) as (g & Hm & ->).
  pose proof (find_split _ _ _ _ _ Hf) as ->.
  destruct (description_match_inv _ _ _ Hm)
    as (q1 & q2 & body & Heq & H1 & H2 & Hne & Hb).
  apply app_inv_tail in Heq as ->.
  rewrite (description_matches _ _ _ _ H1 H2 Hne Hb) in Hm.
  injection Hm as <-.
  rewrite (expand_group_chars 1 _ (description_field q1 q2 body))
    by apply lookup_singleton_eq.
  split.
  - pose proof (sublist_length _ _
      (scan_sublist _ _ (category_line category)
         (description_shape_chunk _) b)) as Hlen.
    assert (0 < length (category_line category)) as Hline
      by (unfold category_line; cbn [length]; lia).
    rewrite !length_app. lia.
  - apply (search_true_at _ _ (length a)).
    rewrite drop_app_length, <- app_assoc.
    by rewrite (description_matches _ _ _ _ H1 H2 Hne Hb).
Qed.

Lemma add_category_grows_witness :
  exists out,
    add_category "Testing" two_descriptions = Some out /\
    length two_descriptions < length out /\
    Re.search description_re out = true.
Proof. apply add_category_grows; reflexivity. Defined.
